(** * next-hexagon: a ball bouncing inside a rotating hexagon

    Shallow embedding of [src/lib/physics.ts], [src/lib/geometry.ts] and of
    the physics part of [src/components/HexagonBounce.tsx], followed by the
    properties of the collision and integration code.

    Numbers.  The TypeScript code computes with [number].  The embedding
    reads every [number] as a real number and every arithmetic operator as
    the exact operation on [R]; rounding, NaN and the infinities are outside
    the model.  The one event of the float semantics that matters to the
    properties below, a division whose divisor is zero, is kept observable:
    [checked_div] answers [None] there, and every function that divides
    lives in the [option] monad. *)

From Stdlib Require Import Reals Lra Psatz List Bool Arith Lia.
Import ListNotations.

Local Open Scope R_scope.

(** ** Comparisons and division on numbers *)

Definition Rltb (a b : R) : bool := if Rlt_dec a b then true else false.
Definition Rgeb (a b : R) : bool := if Rge_dec a b then true else false.
Definition Reqb (a b : R) : bool := if Req_dec_T a b then true else false.

(** [a / b] of the source.  [None] stands for the NaN or infinity that
    JavaScript produces when [b] is zero. *)
Definition checked_div (a b : R) : option R :=
  if Req_dec_T b 0 then None else Some (a / b).

Notation "x <- c1 ;; c2" :=
  (match c1 with Some x => c2 | None => None end)
  (at level 61, c1 at next level, right associativity).

(** ** [src/lib/physics.ts] *)

Module Physics.

Record Vector2D : Type := mkVector { x : R; y : R }.

Record Ball : Type := mkBall {
  position : Vector2D;
  velocity : Vector2D;
  radius : R;
  mass : R
}.

Record PhysicsParams : Type := mkParams {
  gravity : R;
  airFriction : R;
  bounceDamping : R;
  minVelocity : R
}.

Definition addVectors (v1 v2 : Vector2D) : Vector2D :=
  {| x := x v1 + x v2; y := y v1 + y v2 |}.

Definition scaleVector (v : Vector2D) (scalar : R) : Vector2D :=
  {| x := x v * scalar; y := y v * scalar |}.

Definition dotProduct (v1 v2 : Vector2D) : R :=
  x v1 * x v2 + y v1 * y v2.

Definition vectorLength (v : Vector2D) : R :=
  sqrt (x v * x v + y v * y v).

Definition normalizeVector (v : Vector2D) : option Vector2D :=
  let length := vectorLength v in
  if Reqb length 0 then Some {| x := 0; y := 0 |}
  else
    s <- checked_div 1 length ;;
    Some (scaleVector v s).

(** The functions below mutate the ball they are given; the embedding
    returns the ball after the call. *)

Definition set_velocity (ball : Ball) (v : Vector2D) : Ball :=
  {| position := position ball; velocity := v;
     radius := radius ball; mass := mass ball |}.

Definition set_position (ball : Ball) (p : Vector2D) : Ball :=
  {| position := p; velocity := velocity ball;
     radius := radius ball; mass := mass ball |}.

Definition applyGravity (ball : Ball) (gravity deltaTime : R) : Ball :=
  set_velocity ball
    {| x := x (velocity ball);
       y := y (velocity ball) + gravity * deltaTime |}.

Definition applyAirFriction (ball : Ball) (airFriction deltaTime : R) : Ball :=
  let friction := 1 - airFriction * deltaTime in
  set_velocity ball
    {| x := x (velocity ball) * friction;
       y := y (velocity ball) * friction |}.

Definition updateBallPosition (ball : Ball) (deltaTime : R) : Ball :=
  set_position ball
    {| x := x (position ball) + x (velocity ball) * deltaTime;
       y := y (position ball) + y (velocity ball) * deltaTime |}.

Definition calculateBounceVelocity
    (velocity normal wallVelocity : Vector2D) (bounceDamping : R) : Vector2D :=
  let relativeVelocity :=
    {| x := x velocity - x wallVelocity;
       y := y velocity - y wallVelocity |} in
  let normalSpeed := dotProduct relativeVelocity normal in
  if Rltb 0 normalSpeed then velocity
  else
    let bounceVelocity :=
      {| x := x velocity - 2 * normalSpeed * x normal * bounceDamping;
         y := y velocity - 2 * normalSpeed * y normal * bounceDamping |} in
    {| x := x bounceVelocity + x wallVelocity * (1 - bounceDamping);
       y := y bounceVelocity + y wallVelocity * (1 - bounceDamping) |}.

Definition clampMinVelocity (ball : Ball) (minVelocity : R) : option Ball :=
  let speed := vectorLength (velocity ball) in
  if Rltb speed minVelocity && Rltb 0 speed then
    scale <- checked_div minVelocity speed ;;
    Some (set_velocity ball
            {| x := x (velocity ball) * scale;
               y := y (velocity ball) * scale |})
  else Some ball.

End Physics.

(** ** [src/lib/geometry.ts] *)

Module Geometry.
Import Physics.

Record LineSegment : Type := mkSegment { start : Vector2D; end_ : Vector2D }.

Record Hexagon : Type := mkHexagon {
  center : Vector2D;
  radius : R;
  rotation : R
}.

Definition zeroVector : Vector2D := {| x := 0; y := 0 |}.

(** Vertex [i] as the loop body of [getHexagonVertices] builds it.  The
    divisor of [Math.PI / 3] is a literal, so this division is written
    directly. *)
Definition hexagonVertex (hexagon : Hexagon) (i : nat) : Vector2D :=
  let angle := rotation hexagon + (PI / 3) * INR i in
  {| x := x (center hexagon) + radius hexagon * cos angle;
     y := y (center hexagon) + radius hexagon * sin angle |}.

Definition getHexagonVertices (hexagon : Hexagon) : list Vector2D :=
  map (hexagonVertex hexagon) (seq 0 6).

(** [vertices[i]] is [nth i vertices zeroVector]; both indices stay below 6,
    so the default is never read. *)
Definition getHexagonEdges (hexagon : Hexagon) : list LineSegment :=
  let vertices := getHexagonVertices hexagon in
  map (fun i => {| start := nth i vertices zeroVector;
                   end_ := nth ((i + 1) mod 6) vertices zeroVector |})
      (seq 0 6).

Record SegmentDistance : Type := mkSegmentDistance {
  distance : R;
  closestPoint : Vector2D
}.

(** The variable [t] of [pointToSegmentDistance] after the [if]. *)
Definition projectionParameter (point : Vector2D) (segment : LineSegment)
    : option R :=
  let segmentVector :=
    {| x := x (end_ segment) - x (start segment);
       y := y (end_ segment) - y (start segment) |} in
  let pointVector :=
    {| x := x point - x (start segment);
       y := y point - y (start segment) |} in
  let segmentLengthSquared :=
    x segmentVector * x segmentVector + y segmentVector * y segmentVector in
  if negb (Reqb segmentLengthSquared 0) then
    t <- checked_div
           (x pointVector * x segmentVector + y pointVector * y segmentVector)
           segmentLengthSquared ;;
    Some (Rmax 0 (Rmin 1 t))
  else Some 0.

Definition pointToSegmentDistance (point : Vector2D) (segment : LineSegment)
    : option SegmentDistance :=
  let segmentVector :=
    {| x := x (end_ segment) - x (start segment);
       y := y (end_ segment) - y (start segment) |} in
  t <- projectionParameter point segment ;;
  let closestPoint :=
    {| x := x (start segment) + t * x segmentVector;
       y := y (start segment) + t * y segmentVector |} in
  let dx := x point - x closestPoint in
  let dy := y point - y closestPoint in
  let distance := sqrt (dx * dx + dy * dy) in
  Some {| distance := distance; closestPoint := closestPoint |}.

(** The optional fields of the returned object are [option]s: absent is
    [None]. *)
Record CollisionResult : Type := mkCollision {
  collided : bool;
  normal : option Vector2D;
  depth : option R;
  contactPoint : option Vector2D
}.

Definition circleSegmentCollision
    (center : Vector2D) (radius : R) (segment : LineSegment)
    : option CollisionResult :=
  d <- pointToSegmentDistance center segment ;;
  if Rgeb (distance d) radius then
    Some {| collided := false; normal := None; depth := None;
            contactPoint := None |}
  else
    let normal :=
      {| x := x center - x (closestPoint d);
         y := y center - y (closestPoint d) |} in
    let normalLength := sqrt (x normal * x normal + y normal * y normal) in
    normal' <-
      (if Rltb 0 normalLength then
         nx <- checked_div (x normal) normalLength ;;
         ny <- checked_div (y normal) normalLength ;;
         Some {| x := nx; y := ny |}
       else Some normal) ;;
    let depth := radius - distance d in
    Some {| collided := true; normal := Some normal'; depth := Some depth;
            contactPoint := Some (closestPoint d) |}.

Definition getWallVelocity
    (point : Vector2D) (hexagon : Hexagon) (angularVelocity : R) : Vector2D :=
  let relativePos :=
    {| x := x point - x (center hexagon);
       y := y point - y (center hexagon) |} in
  {| x := - y relativePos * angularVelocity;
     y := x relativePos * angularVelocity |}.

Definition getEdgeNormal (edge : LineSegment) : option Vector2D :=
  let edgeVector :=
    {| x := x (end_ edge) - x (start edge);
       y := y (end_ edge) - y (start edge) |} in
  let normal := {| x := - y edgeVector; y := x edgeVector |} in
  let length := sqrt (x normal * x normal + y normal * y normal) in
  if Rltb 0 length then
    nx <- checked_div (x normal) length ;;
    ny <- checked_div (y normal) length ;;
    Some {| x := nx; y := ny |}
  else Some normal.

(** The cross product computed for edge [i] in [isPointInHexagon]. *)
Definition edgeCrossProduct (point : Vector2D) (vertices : list Vector2D)
    (i : nat) : R :=
  let v1 := nth i vertices zeroVector in
  let v2 := nth ((i + 1) mod 6) vertices zeroVector in
  (x v2 - x v1) * (y point - y v1) - (y v2 - y v1) * (x point - x v1).

(** The loop returns [false] at the first edge whose cross product is
    negative and [true] when there is none. *)
Definition isPointInHexagon (point : Vector2D) (hexagon : Hexagon) : bool :=
  let vertices := getHexagonVertices hexagon in
  forallb (fun i => negb (Rltb (edgeCrossProduct point vertices i) 0))
          (seq 0 6).

End Geometry.

(** ** [src/components/HexagonBounce.tsx]: the physics of the game loop *)

Module HexagonBounce.
Import Physics.

(** One iteration of the [for (const edge of edges)] loop of
    [handleCollisions].  [if (collision.depth)] holds when the depth is
    present and not zero. *)
Definition collideWithEdge
    (hexagon : Geometry.Hexagon) (angularVelocity bounceDamping : R)
    (ball : Ball) (edge : Geometry.LineSegment) : option Ball :=
  collision <-
    Geometry.circleSegmentCollision (position ball) (radius ball) edge ;;
  match Geometry.collided collision, Geometry.normal collision,
        Geometry.contactPoint collision with
  | true, Some normal, Some contactPoint =>
      let wallVelocity :=
        Geometry.getWallVelocity contactPoint hexagon angularVelocity in
      let ball1 :=
        set_velocity ball
          (calculateBounceVelocity (velocity ball) normal wallVelocity
             bounceDamping) in
      match Geometry.depth collision with
      | Some depth =>
          if Reqb depth 0 then Some ball1
          else
            Some (set_position ball1
                    {| x := x (position ball1) + x normal * depth;
                       y := y (position ball1) + y normal * depth |})
      | None => Some ball1
      end
  | _, _, _ => Some ball
  end.

Fixpoint collideWithEdges
    (hexagon : Geometry.Hexagon) (angularVelocity bounceDamping : R)
    (ball : Ball) (edges : list Geometry.LineSegment) : option Ball :=
  match edges with
  | [] => Some ball
  | edge :: rest =>
      ball' <- collideWithEdge hexagon angularVelocity bounceDamping
                 ball edge ;;
      collideWithEdges hexagon angularVelocity bounceDamping ball' rest
  end.

(** The containment fallback that ends [handleCollisions]. *)
Definition keepInsideHexagon (ball : Ball) (hexagon : Geometry.Hexagon)
    : option Ball :=
  if negb (Geometry.isPointInHexagon (position ball) hexagon) then
    let toCenterX := x (Geometry.center hexagon) - x (position ball) in
    let toCenterY := y (Geometry.center hexagon) - y (position ball) in
    let distance := sqrt (toCenterX * toCenterX + toCenterY * toCenterY) in
    if Rltb 0 distance then
      ux <- checked_div toCenterX distance ;;
      uy <- checked_div toCenterY distance ;;
      Some (set_position ball
              {| x := x (position ball) + ux * 5;
                 y := y (position ball) + uy * 5 |})
    else Some ball
  else Some ball.

Definition handleCollisions
    (bounceDamping : R) (ball : Ball) (hexagon : Geometry.Hexagon)
    (angularVelocity : R) : option Ball :=
  let edges := Geometry.getHexagonEdges hexagon in
  ball' <- collideWithEdges hexagon angularVelocity bounceDamping
             ball edges ;;
  keepInsideHexagon ball' hexagon.

(** The two objects the loop mutates. *)
Record SimState : Type := mkState {
  ball : Ball;
  hexagon : Geometry.Hexagon
}.

(** The body of [if (!isPaused && deltaTime > 0)] in [gameLoop], without the
    trail, which is display only. *)
Definition simulationStep
    (physicsParams : PhysicsParams) (rotationSpeed deltaTime : R)
    (st : SimState) : option SimState :=
  let hexagon1 :=
    {| Geometry.center := Geometry.center (hexagon st);
       Geometry.radius := Geometry.radius (hexagon st);
       Geometry.rotation :=
         Geometry.rotation (hexagon st) + rotationSpeed * deltaTime |} in
  let ball1 := applyGravity (ball st) (gravity physicsParams) deltaTime in
  let ball2 := applyAirFriction ball1 (airFriction physicsParams) deltaTime in
  let ball3 := updateBallPosition ball2 deltaTime in
  ball4 <- handleCollisions (bounceDamping physicsParams) ball3 hexagon1
             rotationSpeed ;;
  ball5 <- clampMinVelocity ball4 (minVelocity physicsParams) ;;
  Some {| ball := ball5; hexagon := hexagon1 |}.

(** The state update of [gameLoop], guard included. *)
Definition gameLoopUpdate
    (isPaused : bool) (physicsParams : PhysicsParams)
    (rotationSpeed deltaTime : R) (st : SimState) : option SimState :=
  if negb isPaused && Rltb 0 deltaTime then
    simulationStep physicsParams rotationSpeed deltaTime st
  else Some st.

(** [updateTrail] pushes a copy of the position at the end of the trail and
    drops the oldest entry once the trail is longer than [maxTrailLength];
    [trail] is [trailRef.current] before the call and the result is
    [trailRef.current] after it. *)
Definition maxTrailLength : nat := 50.

Definition updateTrail
    (showTrail : bool) (trail : list Vector2D) (position : Vector2D)
    : list Vector2D :=
  if negb showTrail then trail
  else
    let trail1 := trail ++ [position] in
    if (maxTrailLength <? length trail1)%nat then tl trail1 else trail1.

(** [resetBall] and [handleCanvasClick]; [random1] and [random2] are the
    values of the two calls of [Math.random()], in call order, and [x], [y]
    the click position relative to the canvas.  Both also empty the trail. *)
Definition resetBall (random1 random2 : R) : Ball :=
  {| position := {| x := 400; y := 200 |};
     velocity := {| x := random1 * 400 - 200; y := random2 * 200 - 100 |};
     radius := 10;
     mass := 1 |}.

Definition handleCanvasClick
    (ball : Ball) (clickX clickY random1 random2 : R) : Ball :=
  set_velocity
    (set_position ball {| x := clickX; y := clickY |})
    {| x := (random1 - 1 / 2) * 400; y := (random2 - 1 / 2) * 400 |}.

End HexagonBounce.

(** * Vocabulary of the statements *)

Import Physics Geometry HexagonBounce.

(** The constant [normalSpeed] of [calculateBounceVelocity]: the speed of
    the ball relative to the wall, along the normal. *)
Definition normalSpeedOf (velocity normal wallVelocity : Vector2D) : R :=
  dotProduct {| x := x velocity - x wallVelocity;
                y := y velocity - y wallVelocity |} normal.

(** The point of the segment at parameter [t], and the distance between two
    points; both are used to state what [pointToSegmentDistance] returns. *)
Definition pointOnSegment (segment : LineSegment) (t : R) : Vector2D :=
  {| x := x (start segment) + t * (x (end_ segment) - x (start segment));
     y := y (start segment) + t * (y (end_ segment) - y (start segment)) |}.

Definition euclideanDistance (a b : Vector2D) : R :=
  vectorLength {| x := x a - x b; y := y a - y b |}.

(** The object [{ collided: false }]. *)
Definition noCollision : CollisionResult :=
  {| collided := false; normal := None; depth := None; contactPoint := None |}.

(** The vector along a segment, its midpoint and the vector from one point
    to another, to state where [getEdgeNormal] points. *)
Definition segmentVector (s : LineSegment) : Vector2D :=
  {| x := x (end_ s) - x (start s); y := y (end_ s) - y (start s) |}.

Definition segmentMidpoint (s : LineSegment) : Vector2D :=
  {| x := (x (start s) + x (end_ s)) / 2;
     y := (y (start s) + y (end_ s)) / 2 |}.

Definition vectorFromTo (a b : Vector2D) : Vector2D :=
  {| x := x b - x a; y := y b - y a |}.

(** The segment from (0, 0) to (1, 0). *)
Definition unitSegment : LineSegment :=
  {| start := zeroVector; end_ := {| x := 1; y := 0 |} |}.

(** The hexagon of radius 1 around the origin, not rotated, and its first
    edge, from (1, 0) to (1/2, sqrt 3 / 2). *)
Definition unitHexagon : Hexagon :=
  {| center := zeroVector; radius := 1; rotation := 0 |}.

Definition unitHexagonEdge0 : LineSegment :=
  {| start := {| x := 1; y := 0 |};
     end_ := {| x := 1 / 2; y := sqrt 3 / 2 |} |}.

(** The parameters the component starts with, its hexagon, and a ball at
    the centre of that hexagon. *)
Definition initialParams : PhysicsParams :=
  {| gravity := 500; airFriction := 2 / 100; bounceDamping := 85 / 100;
     minVelocity := 50 |}.

Definition initialHexagon : Hexagon :=
  {| center := {| x := 400; y := 300 |}; radius := 200; rotation := 0 |}.

Definition centredBall (v : Vector2D) : Ball :=
  {| position := {| x := 400; y := 300 |}; velocity := v;
     Physics.radius := 10; mass := 1 |}.

(** The segment walked from its end to its start. *)
Definition reverseSegment (s : LineSegment) : LineSegment :=
  {| start := end_ s; end_ := start s |}.

(** The distance from the centre of a hexagon to the middle of its edges. *)
Definition apothem (h : Hexagon) : R := radius h * (sqrt 3 / 2).

(** The hexagon turned by [angle]. *)
Definition rotateHexagon (h : Hexagon) (angle : R) : Hexagon :=
  {| center := center h; radius := radius h; rotation := rotation h + angle |}.

(** * Properties *)

(** ** Reflection of the comparisons *)

Lemma Rltb_true (a b : R) : Rltb a b = true <-> a < b.
Proof. unfold Rltb; destruct (Rlt_dec a b); split; intros; try easy. Qed.

Lemma Rltb_false (a b : R) : Rltb a b = false <-> b <= a.
Proof.
  unfold Rltb; destruct (Rlt_dec a b); split; intros; try easy; lra.
Qed.

Lemma Rgeb_true (a b : R) : Rgeb a b = true <-> b <= a.
Proof.
  unfold Rgeb; destruct (Rge_dec a b); split; intros; try easy; lra.
Qed.

Lemma Rgeb_false (a b : R) : Rgeb a b = false <-> a < b.
Proof.
  unfold Rgeb; destruct (Rge_dec a b); split; intros; try easy; lra.
Qed.

Lemma Reqb_true (a b : R) : Reqb a b = true <-> a = b.
Proof. unfold Reqb; destruct (Req_dec_T a b); split; intros; try easy. Qed.

Lemma Reqb_false (a b : R) : Reqb a b = false <-> a <> b.
Proof. unfold Reqb; destruct (Req_dec_T a b); split; intros; try easy. Qed.

Lemma checked_div_nonzero (a b : R) : b <> 0 -> checked_div a b = Some (a / b).
Proof. intros H; unfold checked_div; destruct (Req_dec_T b 0); easy. Qed.

Lemma checked_div_zero (a : R) : checked_div a 0 = None.
Proof. unfold checked_div; destruct (Req_dec_T 0 0); easy. Qed.

(** Decide one comparison of the model from the hypotheses at hand. *)
Ltac by_arith := first [lra | nra | assumption].

Ltac decide_cmp :=
  match goal with
  | |- context [Rltb ?a ?b] =>
      first [ replace (Rltb a b) with true
                by (symmetry; apply Rltb_true; by_arith)
            | replace (Rltb a b) with false
                by (symmetry; apply Rltb_false; by_arith) ]
  | |- context [Rgeb ?a ?b] =>
      first [ replace (Rgeb a b) with true
                by (symmetry; apply Rgeb_true; by_arith)
            | replace (Rgeb a b) with false
                by (symmetry; apply Rgeb_false; by_arith) ]
  | |- context [Reqb ?a ?b] =>
      first [ replace (Reqb a b) with true
                by (symmetry; apply Reqb_true; by_arith)
            | replace (Reqb a b) with false
                by (symmetry; apply Reqb_false; by_arith) ]
  end.

(** ** Vectors *)

Lemma vector_eq (a b : Vector2D) : x a = x b -> y a = y b -> a = b.
Proof. destruct a, b; simpl; intros -> ->; reflexivity. Qed.

Lemma vectorLength_nonneg (v : Vector2D) : 0 <= vectorLength v.
Proof. apply sqrt_pos. Qed.

Lemma sum_squares_nonneg (a b : R) : 0 <= a * a + b * b.
Proof. nra. Qed.

Lemma vectorLength_sqr (v : Vector2D) :
  vectorLength v * vectorLength v = x v * x v + y v * y v.
Proof. apply sqrt_sqrt, sum_squares_nonneg. Qed.

Lemma unit_vector_sqr (n : Vector2D) :
  vectorLength n = 1 -> x n * x n + y n * y n = 1.
Proof. intros H; rewrite <- vectorLength_sqr, H; ring. Qed.

Lemma vectorLength_zero_iff (v : Vector2D) :
  vectorLength v = 0 <-> x v = 0 /\ y v = 0.
Proof.
  split.
  - intros H. pose proof (vectorLength_sqr v) as E. rewrite H in E.
    split; nra.
  - intros [Hx Hy]. unfold vectorLength. rewrite Hx, Hy.
    replace (0 * 0 + 0 * 0) with 0 by ring. apply sqrt_0.
Qed.

Lemma vectorLength_scale (v : Vector2D) (k : R) :
  0 <= k -> vectorLength (scaleVector v k) = vectorLength v * k.
Proof.
  intros Hk. unfold vectorLength, scaleVector; simpl.
  replace (x v * k * (x v * k) + y v * k * (y v * k))
    with ((x v * x v + y v * y v) * (k * k)) by ring.
  rewrite sqrt_mult_alt by apply sum_squares_nonneg.
  now rewrite sqrt_square.
Qed.

(** ** Collision resolution: [calculateBounceVelocity] *)

Lemma calculateBounceVelocity_separating
    (v n w : Vector2D) (d : R) :
  0 < normalSpeedOf v n w -> calculateBounceVelocity v n w d = v.
Proof.
  intros H. unfold calculateBounceVelocity. fold (normalSpeedOf v n w).
  apply Rltb_true in H. now rewrite H.
Qed.

Lemma calculateBounceVelocity_approaching
    (v n w : Vector2D) (d : R) :
  normalSpeedOf v n w <= 0 ->
  calculateBounceVelocity v n w d =
    {| x := x v - 2 * normalSpeedOf v n w * x n * d + x w * (1 - d);
       y := y v - 2 * normalSpeedOf v n w * y n * d + y w * (1 - d) |}.
Proof.
  intros H. unfold calculateBounceVelocity. fold (normalSpeedOf v n w).
  apply Rltb_false in H. now rewrite H.
Qed.

Section Bounce.

Variables v n w : Vector2D.
Variable d : R.

(** C1 (as amended).  When the ball separates from the wall, that is when the
    relative normal speed is strictly positive, [calculateBounceVelocity]
    returns the velocity it was given.  At relative normal speed exactly zero
    the reflection branch runs and returns [v + (1 - d) * w], which is [v]
    when the wall does not move or the damping is 1. *)
Theorem bounce_separating_unchanged :
  (0 < normalSpeedOf v n w -> calculateBounceVelocity v n w d = v) /\
  (normalSpeedOf v n w = 0 ->
     calculateBounceVelocity v n w d = addVectors v (scaleVector w (1 - d))).
Proof.
  split.
  - apply calculateBounceVelocity_separating.
  - intros H0. rewrite calculateBounceVelocity_approaching by lra.
    rewrite H0. apply vector_eq; simpl; ring.
Qed.

(** C5.  Against a wall at rest and with damping 1, an approaching velocity
    is mirrored: the result is [v - 2 (v.n) n], its component along the unit
    normal is the opposite of the incoming one and its tangential part is
    that of [v]. *)
Theorem bounce_elastic_reflection :
  vectorLength n = 1 ->
  dotProduct v n < 0 ->
  let v' := calculateBounceVelocity v n Geometry.zeroVector 1 in
  v' = addVectors v (scaleVector n (- 2 * dotProduct v n)) /\
  dotProduct v' n = - dotProduct v n /\
  addVectors v' (scaleVector n (- dotProduct v' n)) =
    addVectors v (scaleVector n (- dotProduct v n)).
Proof.
  intros Hn Hv v'.
  assert (Hs : normalSpeedOf v n Geometry.zeroVector = dotProduct v n).
  { unfold normalSpeedOf, dotProduct; simpl. ring. }
  assert (E : v' = addVectors v (scaleVector n (- 2 * dotProduct v n))).
  { unfold v'. rewrite calculateBounceVelocity_approaching by lra.
    rewrite Hs. apply vector_eq; simpl; ring. }
  apply unit_vector_sqr in Hn.
  assert (D : dotProduct v' n = - dotProduct v n).
  { rewrite E. unfold dotProduct in *; simpl. nra. }
  repeat split; trivial.
  rewrite D, E. apply vector_eq; simpl; ring.
Qed.

(** C6 (as amended).  After a bounce the speed relative to the wall along
    the unit normal is [(1 - 2 d) s + (1 - d) (w.n)], where [s] is the speed
    before.
    When the wall velocity has no component along the normal, as for a wall
    at rest, and [0 < d < 1], its magnitude is strictly below that of [s]. *)
Theorem bounce_normal_speed_damped :
  vectorLength n = 1 ->
  0 < d < 1 ->
  normalSpeedOf v n w < 0 ->
  let s := normalSpeedOf v n w in
  let s' := normalSpeedOf (calculateBounceVelocity v n w d) n w in
  s' = (1 - 2 * d) * s + (1 - d) * dotProduct w n /\
  (dotProduct w n = 0 -> Rabs s' < Rabs s).
Proof.
  intros Hn Hd Hs s s'.
  apply unit_vector_sqr in Hn.
  assert (E : s' = (1 - 2 * d) * s + (1 - d) * dotProduct w n).
  { unfold s'. rewrite calculateBounceVelocity_approaching by lra.
    fold s. unfold normalSpeedOf, dotProduct in *; simpl.
    transitivity
      ((x v * x n + y v * y n)
       - 2 * s * d * (x n * x n + y n * y n)
       - d * (x w * x n + y w * y n)); [ring|].
    rewrite Hn. unfold s, normalSpeedOf, dotProduct; simpl. ring. }
  split; [exact E|].
  intros Hw. rewrite E, Hw. fold s in Hs.
  unfold Rabs. destruct (Rcase_abs _), (Rcase_abs s); nra.
Qed.

End Bounce.

(** The relative normal speed is zero, the wall moves and the damping is
    below 1: the returned velocity is not the one given. *)
Lemma bounce_zero_normal_speed_changes_velocity :
  let v := {| x := 1; y := 0 |} in
  let n := {| x := 0; y := 1 |} in
  let w := {| x := 1; y := 0 |} in
  vectorLength n = 1 /\
  0 <= normalSpeedOf v n w /\
  0 <= dotProduct v n /\
  calculateBounceVelocity v n w (1 / 2) <> v.
Proof.
  intros v n w.
  assert (H0 : normalSpeedOf v n w = 0).
  { unfold normalSpeedOf, dotProduct, v, n, w; simpl; ring. }
  repeat split.
  - unfold vectorLength, n; simpl.
    replace (0 * 0 + 1 * 1) with 1 by ring. apply sqrt_1.
  - lra.
  - unfold dotProduct, v, n; simpl; lra.
  - rewrite calculateBounceVelocity_approaching by lra.
    rewrite H0. intros E. apply (f_equal x) in E. simpl in E. lra.
Qed.

Lemma bounce_separating_unchanged_witness :
  calculateBounceVelocity {| x := 0; y := 1 |} {| x := 0; y := 1 |}
    {| x := 2; y := 0 |} (1 / 2) = {| x := 0; y := 1 |} /\
  calculateBounceVelocity {| x := 1; y := 0 |} {| x := 0; y := 1 |}
    {| x := 2; y := 0 |} (1 / 2)
  = addVectors {| x := 1; y := 0 |}
      (scaleVector {| x := 2; y := 0 |} (1 - 1 / 2)).
Proof.
  split.
  - apply (proj1 (bounce_separating_unchanged _ _ _ _)).
    unfold normalSpeedOf, dotProduct; simpl; lra.
  - apply (proj2 (bounce_separating_unchanged _ _ _ _)).
    unfold normalSpeedOf, dotProduct; simpl; lra.
Defined.

Lemma unit_y_length : vectorLength {| x := 0; y := 1 |} = 1.
Proof.
  unfold vectorLength; simpl.
  replace (0 * 0 + 1 * 1) with 1 by ring. apply sqrt_1.
Qed.

Lemma bounce_elastic_reflection_witness :
  dotProduct
    (calculateBounceVelocity {| x := 3; y := -4 |} {| x := 0; y := 1 |}
       Geometry.zeroVector 1)
    {| x := 0; y := 1 |}
  = - dotProduct {| x := 3; y := -4 |} {| x := 0; y := 1 |}.
Proof.
  apply (bounce_elastic_reflection {| x := 3; y := -4 |} {| x := 0; y := 1 |}).
  - exact unit_y_length.
  - unfold dotProduct; simpl; lra.
Defined.

Lemma bounce_normal_speed_damped_witness :
  let v := {| x := 3; y := -4 |} in
  let n := {| x := 0; y := 1 |} in
  let w := Geometry.zeroVector in
  Rabs (normalSpeedOf (calculateBounceVelocity v n w (1 / 2)) n w)
  < Rabs (normalSpeedOf v n w).
Proof.
  intros v n w.
  apply (bounce_normal_speed_damped v n w (1 / 2)).
  - exact unit_y_length.
  - lra.
  - unfold normalSpeedOf, dotProduct, v, n, w; simpl; lra.
  - unfold dotProduct, w, n; simpl; lra.
Defined.

(** The wall recedes faster than the damping removes speed: the relative
    normal speed grows from 1 to 5 in magnitude. *)
Lemma bounce_moving_wall_normal_speed_grows :
  let v := {| x := 0; y := -11 |} in
  let n := {| x := 0; y := 1 |} in
  let w := {| x := 0; y := -10 |} in
  vectorLength n = 1 /\
  normalSpeedOf v n w = -1 /\
  normalSpeedOf (calculateBounceVelocity v n w (1 / 2)) n w = -5 /\
  ~ Rabs (normalSpeedOf (calculateBounceVelocity v n w (1 / 2)) n w)
    < Rabs (normalSpeedOf v n w).
Proof.
  intros v n w.
  assert (Hs : normalSpeedOf v n w = -1).
  { unfold normalSpeedOf, dotProduct, v, n, w; simpl; lra. }
  assert (Hs' : normalSpeedOf (calculateBounceVelocity v n w (1 / 2)) n w = -5).
  { rewrite calculateBounceVelocity_approaching by lra.
    rewrite Hs. unfold normalSpeedOf, dotProduct, v, n, w; simpl; lra. }
  repeat split; trivial.
  - exact unit_y_length.
  - rewrite Hs, Hs'. rewrite !Rabs_left by lra. lra.
Qed.

(** ** The minimum-speed floor: [clampMinVelocity] *)

Lemma clampMinVelocity_unchanged (ball : Ball) (minV : R) :
  vectorLength (velocity ball) = 0 \/ minV <= vectorLength (velocity ball) ->
  clampMinVelocity ball minV = Some ball.
Proof.
  intros H. unfold clampMinVelocity.
  destruct H as [H | H].
  - decide_cmp.
    now rewrite andb_false_r.
  - decide_cmp.
    reflexivity.
Qed.

Lemma clampMinVelocity_total (ball : Ball) (minV : R) :
  exists ball', clampMinVelocity ball minV = Some ball'.
Proof.
  unfold clampMinVelocity.
  destruct (Rltb (vectorLength (velocity ball)) minV); simpl; eauto.
  destruct (Rltb 0 (vectorLength (velocity ball))) eqn:E; eauto.
  apply Rltb_true in E. rewrite checked_div_nonzero by lra. eauto.
Qed.

(** C9.  With a speed strictly between 0 and [minVelocity] the velocity is
    multiplied by the positive factor [minVelocity / speed], so that its
    length becomes [minVelocity]; a ball at rest keeps the zero velocity; a
    ball at least as fast as [minVelocity] is returned as it is.  Position,
    radius and mass are never touched. *)
Theorem clampMinVelocity_spec (ball : Ball) (minV : R) :
  0 <= minV ->
  let speed := vectorLength (velocity ball) in
  (0 < speed < minV ->
     exists k ball',
       clampMinVelocity ball minV = Some ball' /\
       0 < k /\
       velocity ball' = scaleVector (velocity ball) k /\
       vectorLength (velocity ball') = minV /\
       position ball' = position ball /\
       Physics.radius ball' = Physics.radius ball /\
       mass ball' = mass ball) /\
  (speed = 0 ->
     clampMinVelocity ball minV = Some ball /\
     velocity ball = Geometry.zeroVector) /\
  (minV <= speed -> clampMinVelocity ball minV = Some ball).
Proof.
  intros HminV speed. repeat split.
  - intros [Hpos Hlt].
    exists (minV / speed),
      (set_velocity ball (scaleVector (velocity ball) (minV / speed))).
    assert (Hk : 0 < minV / speed) by (apply Rdiv_lt_0_compat; lra).
    repeat split; trivial.
    + unfold clampMinVelocity. fold speed.
      apply Rltb_true in Hpos, Hlt. rewrite Hpos, Hlt. simpl.
      apply Rltb_true in Hpos.
      now rewrite checked_div_nonzero by lra.
    + simpl. rewrite vectorLength_scale by lra. fold speed. field. lra.
  - now apply clampMinVelocity_unchanged; left.
  - apply vectorLength_zero_iff in H. destruct H.
    now apply vector_eq.
  - intros H. now apply clampMinVelocity_unchanged; right.
Qed.

Lemma vectorLength_3_4 : vectorLength {| x := 3; y := 4 |} = 5.
Proof.
  unfold vectorLength; simpl.
  replace (3 * 3 + 4 * 4) with (5 * 5) by ring.
  apply sqrt_square; lra.
Qed.

Lemma clampMinVelocity_spec_witness :
  exists ball',
    clampMinVelocity (centredBall {| x := 3; y := 4 |}) 50 = Some ball' /\
    vectorLength (velocity ball') = 50.
Proof.
  destruct (clampMinVelocity_spec (centredBall {| x := 3; y := 4 |}) 50)
    as [H _]; [lra|].
  destruct H as (k & ball' & E & _ & _ & L & _).
  - simpl. rewrite vectorLength_3_4. lra.
  - exists ball'. split; assumption.
Defined.

(** ** Collision detection: [pointToSegmentDistance] *)


Lemma euclideanDistance_nonneg (a b : Vector2D) : 0 <= euclideanDistance a b.
Proof. apply vectorLength_nonneg. Qed.

Lemma Rmax_Rmin_range (t : R) : 0 <= Rmax 0 (Rmin 1 t) <= 1.
Proof.
  unfold Rmax, Rmin.
  destruct (Rle_dec 1 t); destruct (Rle_dec 0 _); lra.
Qed.

(** No path of [pointToSegmentDistance] divides by zero, and the parameter
    it settles on lies in [[0, 1]]. *)
Lemma projectionParameter_range (point : Vector2D) (segment : LineSegment) :
  exists t, projectionParameter point segment = Some t /\ 0 <= t <= 1.
Proof.
  unfold projectionParameter; simpl.
  destruct (Reqb _ 0) eqn:E; simpl.
  - exists 0. split; [reflexivity | lra].
  - apply Reqb_false in E. rewrite checked_div_nonzero by exact E.
    eexists. split; [reflexivity | apply Rmax_Rmin_range].
Qed.

Lemma pointToSegmentDistance_at
    (point : Vector2D) (segment : LineSegment) (t : R) :
  projectionParameter point segment = Some t ->
  pointToSegmentDistance point segment =
    Some {| distance := euclideanDistance point (pointOnSegment segment t);
            closestPoint := pointOnSegment segment t |}.
Proof.
  intros H. unfold pointToSegmentDistance. rewrite H. reflexivity.
Qed.

Lemma pointToSegmentDistance_total
    (point : Vector2D) (segment : LineSegment) :
  exists d,
    pointToSegmentDistance point segment = Some d /\
    distance d = euclideanDistance point (closestPoint d) /\
    0 <= distance d.
Proof.
  destruct (projectionParameter_range point segment) as (t & Ht & _).
  eexists. split; [apply (pointToSegmentDistance_at _ _ _ Ht)|].
  simpl. split; [reflexivity | apply euclideanDistance_nonneg].
Qed.

(** The point returned is the one of the segment nearest to [point]. *)
Lemma projectionParameter_nearest
    (point : Vector2D) (segment : LineSegment) (t u : R) :
  projectionParameter point segment = Some t ->
  0 <= u <= 1 ->
  euclideanDistance point (pointOnSegment segment t)
  <= euclideanDistance point (pointOnSegment segment u).
Proof.
  intros Ht Hu.
  unfold euclideanDistance, vectorLength, pointOnSegment; simpl.
  apply sqrt_le_1_alt.
  revert Ht. unfold projectionParameter; simpl.
  set (sx := x (end_ segment) - x (start segment)).
  set (sy := y (end_ segment) - y (start segment)).
  set (px := x point - x (start segment)).
  set (py := y point - y (start segment)).
  replace (x point - (x (start segment) + t * sx)) with (px - t * sx)
    by (unfold px; ring).
  replace (y point - (y (start segment) + t * sy)) with (py - t * sy)
    by (unfold py; ring).
  replace (x point - (x (start segment) + u * sx)) with (px - u * sx)
    by (unfold px; ring).
  replace (y point - (y (start segment) + u * sy)) with (py - u * sy)
    by (unfold py; ring).
  destruct (Reqb (sx * sx + sy * sy) 0) eqn:E; simpl.
  - intros [= <-]. apply Reqb_true in E.
    assert (sx = 0) by nra. assert (sy = 0) by nra. subst sx sy.
    rewrite H, H0. right; ring.
  - apply Reqb_false in E. rewrite checked_div_nonzero by exact E.
    intros [= <-].
    set (L := sx * sx + sy * sy) in *.
    set (N := px * sx + py * sy) in *.
    assert (HL : 0 < L).
    { destruct (Rtotal_order L 0) as [H | [H | H]];
        [unfold L in H; nra | contradiction | exact H]. }
    assert (Hdiff : forall a b,
      (px - b * sx) * (px - b * sx) + (py - b * sy) * (py - b * sy)
      - ((px - a * sx) * (px - a * sx) + (py - a * sy) * (py - a * sy))
      = (b - a) * ((b + a) * L - 2 * N)).
    { intros a b. unfold L, N. ring. }
    clearbody L N.
    assert (HN : N = N / L * L) by (field; lra).
    set (t0 := N / L) in *. clearbody t0.
    apply Rminus_le. apply Ropp_le_cancel. rewrite Ropp_0.
    rewrite Ropp_minus_distr, (Hdiff (Rmax 0 (Rmin 1 t0)) u), HN.
    unfold Rmax, Rmin.
    destruct (Rle_dec 1 t0); destruct (Rle_dec 0 _).
    + replace ((u - 1) * ((u + 1) * L - 2 * (t0 * L)))
        with (L * ((1 - u) * (2 * t0 - u - 1))) by ring.
      apply Rmult_le_pos; [lra | apply Rmult_le_pos; lra].
    + lra.
    + replace ((u - t0) * ((u + t0) * L - 2 * (t0 * L)))
        with (L * ((u - t0) * (u - t0))) by ring.
      apply Rmult_le_pos; [lra | apply (Rle_0_sqr (u - t0))].
    + replace ((u - 0) * ((u + 0) * L - 2 * (t0 * L)))
        with (L * (u * (u - 2 * t0))) by ring.
      apply Rmult_le_pos; [lra | apply Rmult_le_pos; lra].
Qed.

(** ** Collision detection: [circleSegmentCollision] *)

Lemma circleSegmentCollision_far
    (c : Vector2D) (r : R) (s : LineSegment) (d : SegmentDistance) :
  pointToSegmentDistance c s = Some d ->
  r <= distance d ->
  circleSegmentCollision c r s = Some noCollision.
Proof.
  intros Hd Hr. unfold circleSegmentCollision. rewrite Hd.
  apply Rgeb_true in Hr. now rewrite Hr.
Qed.

Lemma normalized_unit (a b : R) :
  let l := sqrt (a * a + b * b) in
  0 < l -> vectorLength {| x := a / l; y := b / l |} = 1.
Proof.
  intros l Hl. unfold vectorLength; simpl.
  assert (Hll : l * l = a * a + b * b)
    by (apply sqrt_sqrt, sum_squares_nonneg).
  replace (a / l * (a / l) + b / l * (b / l))
    with ((a * a + b * b) / (l * l)) by (field; lra).
  rewrite <- Hll. replace (l * l / (l * l)) with 1 by (field; lra).
  apply sqrt_1.
Qed.

(** What the collision branch returns.  The normal is the vector from the
    closest point to the centre divided by its length when that length is
    positive, and that vector itself, the zero vector, otherwise. *)
Lemma circleSegmentCollision_near
    (c : Vector2D) (r : R) (s : LineSegment) (d : SegmentDistance) :
  pointToSegmentDistance c s = Some d ->
  distance d < r ->
  exists n,
    circleSegmentCollision c r s =
      Some {| collided := true; normal := Some n;
              depth := Some (r - distance d);
              contactPoint := Some (closestPoint d) |} /\
    (0 < euclideanDistance c (closestPoint d) -> vectorLength n = 1) /\
    (euclideanDistance c (closestPoint d) = 0 -> n = zeroVector).
Proof.
  intros Hd Hr. unfold circleSegmentCollision. rewrite Hd.
  apply Rgeb_false in Hr. rewrite Hr.
  unfold euclideanDistance, vectorLength; simpl.
  set (a := x c - x (closestPoint d)).
  set (b := y c - y (closestPoint d)).
  set (l := sqrt (a * a + b * b)).
  destruct (Rltb 0 l) eqn:E.
  - apply Rltb_true in E. rewrite !checked_div_nonzero by lra.
    eexists. split; [reflexivity|]. split.
    + intros _. now apply normalized_unit.
    + lra.
  - apply Rltb_false in E.
    eexists. split; [reflexivity|]. split.
    + lra.
    + intros H0.
      assert (Hv : vectorLength {| x := a; y := b |} = 0) by exact H0.
      apply vectorLength_zero_iff in Hv. simpl in Hv.
      destruct Hv. now apply vector_eq.
Qed.

Lemma circleSegmentCollision_total
    (c : Vector2D) (r : R) (s : LineSegment) :
  exists res, circleSegmentCollision c r s = Some res.
Proof.
  destruct (pointToSegmentDistance_total c s) as (d & Hd & _).
  destruct (Rlt_le_dec (distance d) r) as [H | H].
  - destruct (circleSegmentCollision_near c r s d Hd H) as (n & E & _).
    eauto.
  - rewrite (circleSegmentCollision_far c r s d Hd H). eauto.
Qed.

(** C7.  [circleSegmentCollision] always answers, and it reports a collision
    exactly when the distance from the centre to the nearest point of the
    segment, the one at the clamped projection parameter, is strictly below
    the radius; at distance equal to the radius it reports none. *)
Theorem circleSegmentCollision_iff_distance_lt_radius
    (c : Vector2D) (r : R) (s : LineSegment) :
  0 < r ->
  exists d res t,
    pointToSegmentDistance c s = Some d /\
    circleSegmentCollision c r s = Some res /\
    0 <= t <= 1 /\
    closestPoint d = pointOnSegment s t /\
    distance d = euclideanDistance c (closestPoint d) /\
    (forall u, 0 <= u <= 1 ->
       distance d <= euclideanDistance c (pointOnSegment s u)) /\
    (collided res = true <-> distance d < r) /\
    (distance d = r -> collided res = false).
Proof.
  intros _.
  destruct (projectionParameter_range c s) as (t & Ht & Hrange).
  pose proof (pointToSegmentDistance_at c s t Ht) as Hd.
  set (d := {| distance := euclideanDistance c (pointOnSegment s t);
               closestPoint := pointOnSegment s t |}) in *.
  assert (Hmin : forall u, 0 <= u <= 1 ->
            distance d <= euclideanDistance c (pointOnSegment s u)).
  { intros u Hu. apply (projectionParameter_nearest c s t u Ht Hu). }
  destruct (Rlt_le_dec (distance d) r) as [H | H].
  - destruct (circleSegmentCollision_near c r s d Hd H) as (n & E & _).
    exists d. eexists. exists t.
    split; [exact Hd|]. split; [exact E|]. split; [exact Hrange|].
    split; [reflexivity|]. split; [reflexivity|]. split; [exact Hmin|].
    cbn [collided]. split; [tauto | intros; exfalso; lra].
  - exists d, noCollision, t.
    split; [exact Hd|].
    split; [exact (circleSegmentCollision_far c r s d Hd H)|].
    split; [exact Hrange|].
    split; [reflexivity|]. split; [reflexivity|]. split; [exact Hmin|].
    cbn [collided noCollision]. split; [|reflexivity].
    split; [discriminate | intros; exfalso; lra].
Qed.

(** C10.  A circle of radius zero or less collides with nothing: the
    distance to the segment is never negative, so the function answers
    "no collision", with no normal, depth or contact point. *)
Theorem circleSegmentCollision_nonpositive_radius
    (c : Vector2D) (r : R) (s : LineSegment) :
  r <= 0 ->
  circleSegmentCollision c r s =
    Some {| collided := false; normal := None; depth := None;
            contactPoint := None |}.
Proof.
  intros Hr.
  destruct (pointToSegmentDistance_total c s) as (d & Hd & _ & Hpos).
  apply (circleSegmentCollision_far c r s d Hd). lra.
Qed.

(** C4 (as amended).  [circleSegmentCollision] always answers, and when it
    reports a collision the normal is present.  It has length 1 when the
    centre is off the closest point, and it is the zero vector when the
    centre lies on the segment, where the distance is zero. *)
Theorem circleSegmentCollision_normal
    (c : Vector2D) (r : R) (s : LineSegment) :
  exists d res,
    pointToSegmentDistance c s = Some d /\
    circleSegmentCollision c r s = Some res /\
    (collided res = true ->
     exists n,
       normal res = Some n /\
       (0 < distance d -> vectorLength n = 1) /\
       (distance d = 0 -> n = zeroVector /\ vectorLength n = 0)).
Proof.
  destruct (pointToSegmentDistance_total c s) as (d & Hd & Hdist & Hpos).
  exists d.
  destruct (Rlt_le_dec (distance d) r) as [H | H].
  - destruct (circleSegmentCollision_near c r s d Hd H) as (n & E & Hu & Hz).
    eexists. split; [exact Hd|]. split; [exact E|].
    intros _. exists n. rewrite Hdist.
    split; [reflexivity|]. split; [exact Hu|].
    intros H0. split; [now apply Hz|].
    rewrite (Hz H0). now apply vectorLength_zero_iff.
  - exists noCollision. split; [exact Hd|].
    split; [exact (circleSegmentCollision_far c r s d Hd H)|].
    discriminate.
Qed.

(** C8.  On a segment whose two ends coincide the guard on the squared
    length skips the division: the parameter is 0, the call answers (no
    division by zero takes place), the closest point is the start of the
    segment and the distance is the distance from the point to it. *)
Theorem pointToSegmentDistance_degenerate
    (point : Vector2D) (segment : LineSegment) :
  start segment = end_ segment ->
  projectionParameter point segment = Some 0 /\
  pointToSegmentDistance point segment =
    Some {| distance := euclideanDistance point (start segment);
            closestPoint := start segment |}.
Proof.
  intros Hdeg.
  assert (Ht : projectionParameter point segment = Some 0).
  { unfold projectionParameter; simpl. rewrite <- Hdeg.
    replace (Reqb _ 0) with true; [reflexivity|].
    symmetry; apply Reqb_true; ring. }
  split; [exact Ht|].
  rewrite (pointToSegmentDistance_at _ _ _ Ht).
  replace (pointOnSegment segment 0) with (start segment); [reflexivity|].
  apply vector_eq; simpl; ring.
Qed.

Lemma pointToSegmentDistance_degenerate_witness :
  pointToSegmentDistance {| x := 3; y := 4 |}
    {| start := zeroVector; end_ := zeroVector |}
  = Some {| distance := euclideanDistance {| x := 3; y := 4 |} zeroVector;
            closestPoint := zeroVector |}.
Proof.
  apply (pointToSegmentDistance_degenerate {| x := 3; y := 4 |}
           {| start := zeroVector; end_ := zeroVector |}).
  reflexivity.
Defined.

Lemma projectionParameter_unitSegment_origin :
  projectionParameter zeroVector unitSegment = Some 0.
Proof.
  unfold projectionParameter, unitSegment, zeroVector; simpl.
  decide_cmp.
  simpl. rewrite checked_div_nonzero by lra.
  f_equal. unfold Rmax, Rmin.
  destruct (Rle_dec 1 _); destruct (Rle_dec 0 _); lra.
Qed.

Lemma pointToSegmentDistance_unitSegment_origin :
  pointToSegmentDistance zeroVector unitSegment =
    Some {| distance := 0; closestPoint := zeroVector |}.
Proof.
  rewrite (pointToSegmentDistance_at _ _ _
             projectionParameter_unitSegment_origin).
  assert (Hp : pointOnSegment unitSegment 0 = zeroVector)
    by (apply vector_eq; simpl; ring).
  rewrite Hp. f_equal. f_equal.
  apply vectorLength_zero_iff; simpl; lra.
Qed.

(** The centre lies on the segment: a collision is reported and its normal
    is the zero vector, of length 0. *)
Lemma circleSegmentCollision_zero_normal :
  circleSegmentCollision zeroVector 1 unitSegment =
    Some {| collided := true; normal := Some zeroVector;
            depth := Some (1 - 0); contactPoint := Some zeroVector |} /\
  vectorLength zeroVector <> 1.
Proof.
  split.
  - destruct (circleSegmentCollision_near zeroVector 1 unitSegment _
                pointToSegmentDistance_unitSegment_origin)
      as (n & E & _ & Hz).
    + simpl; lra.
    + simpl in *. rewrite E, Hz; [reflexivity|].
      apply vectorLength_zero_iff; simpl; lra.
  - replace (vectorLength zeroVector) with 0; [lra|].
    symmetry; apply vectorLength_zero_iff; simpl; lra.
Qed.

Lemma circleSegmentCollision_iff_distance_lt_radius_witness :
  exists res,
    circleSegmentCollision zeroVector 1 unitSegment = Some res /\
    collided res = true.
Proof.
  destruct (circleSegmentCollision_iff_distance_lt_radius
              zeroVector 1 unitSegment)
    as (d & res & t & Hd & Hres & _ & _ & _ & _ & Hiff & _); [lra|].
  exists res. split; [exact Hres|].
  apply Hiff.
  rewrite pointToSegmentDistance_unitSegment_origin in Hd.
  injection Hd as <-. simpl; lra.
Defined.

Lemma circleSegmentCollision_nonpositive_radius_witness :
  circleSegmentCollision zeroVector 0 unitSegment =
    Some {| collided := false; normal := None; depth := None;
            contactPoint := None |}.
Proof.
  apply (circleSegmentCollision_nonpositive_radius zeroVector 0 unitSegment).
  lra.
Defined.

(** A circle of radius 3 centred at (0, 2) over [unitSegment]: the closest
    point is the origin, at distance 2. *)
Lemma projectionParameter_unitSegment_above :
  projectionParameter {| x := 0; y := 2 |} unitSegment = Some 0.
Proof.
  unfold projectionParameter, unitSegment, zeroVector; simpl.
  decide_cmp.
  simpl. rewrite checked_div_nonzero by lra.
  f_equal. unfold Rmax, Rmin.
  destruct (Rle_dec 1 _); destruct (Rle_dec 0 _); lra.
Qed.

Lemma pointToSegmentDistance_unitSegment_above :
  pointToSegmentDistance {| x := 0; y := 2 |} unitSegment =
    Some {| distance := 2; closestPoint := zeroVector |}.
Proof.
  rewrite (pointToSegmentDistance_at _ _ _
             projectionParameter_unitSegment_above).
  assert (Hp : pointOnSegment unitSegment 0 = zeroVector)
    by (apply vector_eq; simpl; ring).
  rewrite Hp. f_equal. f_equal.
  unfold euclideanDistance, vectorLength; simpl.
  replace ((0 - 0) * (0 - 0) + (2 - 0) * (2 - 0)) with (2 * 2) by ring.
  apply sqrt_square; lra.
Qed.

Lemma circleSegmentCollision_normal_witness :
  exists res n,
    circleSegmentCollision {| x := 0; y := 2 |} 3 unitSegment = Some res /\
    normal res = Some n /\ vectorLength n = 1.
Proof.
  destruct (circleSegmentCollision_normal {| x := 0; y := 2 |} 3 unitSegment)
    as (d & res & Hd & Hres & Hn).
  rewrite pointToSegmentDistance_unitSegment_above in Hd.
  injection Hd as <-.
  destruct (circleSegmentCollision_near {| x := 0; y := 2 |} 3 unitSegment _
              pointToSegmentDistance_unitSegment_above)
    as (n0 & E & _); [simpl; lra|].
  rewrite E in Hres. injection Hres as <-.
  destruct (Hn eq_refl) as (n & En & Hunit & _).
  eexists. exists n. split; [exact E|]. split; [exact En|].
  apply Hunit. simpl; lra.
Defined.

(** ** Hexagon geometry *)

Lemma sqrt3_sqr : sqrt 3 * sqrt 3 = 3.
Proof. apply sqrt_sqrt; lra. Qed.

Lemma sqrt3_pos : 0 < sqrt 3.
Proof. apply sqrt_lt_R0; lra. Qed.

Lemma getHexagonVertices_nth (hexagon : Hexagon) (i : nat) :
  (i < 6)%nat ->
  nth i (getHexagonVertices hexagon) zeroVector = hexagonVertex hexagon i.
Proof.
  intros Hi. unfold getHexagonVertices.
  do 6 (destruct i as [| i]; [reflexivity|]). lia.
Qed.

(** The vertex after vertex [i] sits one sixth of a turn further, also when
    the index wraps from 5 to 0. *)
Lemma next_vertex_angle (theta : R) (i : nat) :
  (i < 6)%nat ->
  let a := theta + PI / 3 * INR i in
  let b := theta + PI / 3 * INR ((i + 1) mod 6) in
  cos b = cos (a + PI / 3) /\ sin b = sin (a + PI / 3).
Proof.
  intros Hi a b.
  destruct (Nat.eq_dec i 5) as [-> | Hne].
  - assert (Eb : b = theta) by (unfold b; simpl; ring).
    assert (Ea : a + PI / 3 = theta + 2 * PI) by (unfold a; simpl; field).
    rewrite Eb, Ea, cos_plus, sin_plus, cos_2PI, sin_2PI. split; ring.
  - assert (Em : ((i + 1) mod 6 = S i)%nat).
    { rewrite Nat.add_1_r. apply Nat.mod_small. lia. }
    assert (Eb : b = a + PI / 3).
    { unfold b, a. rewrite Em, S_INR. field. }
    rewrite Eb. split; reflexivity.
Qed.

(** Vertex [i] and its successor, in terms of the direction [(ca, sa)] of
    vertex [i]. *)
Lemma hexagon_vertex_pair (hexagon : Hexagon) (i : nat) :
  (i < 6)%nat ->
  exists ca sa,
    ca * ca + sa * sa = 1 /\
    nth i (getHexagonVertices hexagon) zeroVector =
      {| x := x (center hexagon) + radius hexagon * ca;
         y := y (center hexagon) + radius hexagon * sa |} /\
    nth ((i + 1) mod 6) (getHexagonVertices hexagon) zeroVector =
      {| x := x (center hexagon)
              + radius hexagon * (ca / 2 - sa * (sqrt 3 / 2));
         y := y (center hexagon)
              + radius hexagon * (sa / 2 + ca * (sqrt 3 / 2)) |}.
Proof.
  intros Hi.
  set (a := rotation hexagon + PI / 3 * INR i).
  exists (cos a), (sin a).
  split; [|split].
  - pose proof (sin2_cos2 a) as H. unfold Rsqr in H. lra.
  - now rewrite getHexagonVertices_nth.
  - rewrite getHexagonVertices_nth by (apply Nat.mod_upper_bound; lia).
    unfold hexagonVertex.
    destruct (next_vertex_angle (rotation hexagon) i Hi) as [Hc Hs].
    rewrite Hc, Hs. fold a.
    rewrite cos_plus, sin_plus, cos_PI3, sin_PI3.
    apply vector_eq; simpl; field.
Qed.

Lemma hexagon_edge_shape (hexagon : Hexagon) (edge : LineSegment) :
  In edge (getHexagonEdges hexagon) ->
  exists ca sa,
    ca * ca + sa * sa = 1 /\
    edge =
      {| start :=
           {| x := x (center hexagon) + radius hexagon * ca;
              y := y (center hexagon) + radius hexagon * sa |};
         end_ :=
           {| x := x (center hexagon)
                   + radius hexagon * (ca / 2 - sa * (sqrt 3 / 2));
              y := y (center hexagon)
                   + radius hexagon * (sa / 2 + ca * (sqrt 3 / 2)) |} |}.
Proof.
  unfold getHexagonEdges. intros Hin.
  apply in_map_iff in Hin. destruct Hin as (i & <- & Hi).
  apply in_seq in Hi.
  destruct (hexagon_vertex_pair hexagon i) as (ca & sa & Hu & H1 & H2);
    [lia|].
  exists ca, sa. split; [exact Hu|]. now rewrite H1, H2.
Qed.

Lemma getHexagonEdges_length (hexagon : Hexagon) :
  length (getHexagonEdges hexagon) = 6%nat.
Proof. reflexivity. Qed.

(** The cross product tested by [isPointInHexagon] on edge [i] is the
    component of [point - start] along the vector [(- edge.y, edge.x)] that
    [getEdgeNormal] normalises: the side that vector points to is the side
    [isPointInHexagon] counts as inside. *)
Lemma edgeCrossProduct_normal_component
    (point : Vector2D) (hexagon : Hexagon) (i : nat) :
  (i < 6)%nat ->
  let edge := nth i (getHexagonEdges hexagon) unitSegment in
  edgeCrossProduct point (getHexagonVertices hexagon) i =
    dotProduct {| x := - y (segmentVector edge); y := x (segmentVector edge) |}
               (vectorFromTo (start edge) point).
Proof.
  intros Hi edge.
  assert (E : edge =
    {| start := nth i (getHexagonVertices hexagon) zeroVector;
       end_ := nth ((i + 1) mod 6) (getHexagonVertices hexagon) zeroVector |}).
  { unfold edge, getHexagonEdges.
    do 6 (destruct i as [| i]; [reflexivity|]). lia. }
  rewrite E. unfold edgeCrossProduct, dotProduct, segmentVector, vectorFromTo.
  simpl. ring.
Qed.

(** *** The edge normal *)

(** C2, as the code has it.  On every edge of a hexagon of positive radius
    [getEdgeNormal] answers a unit vector perpendicular to the edge, and its
    dot product with the vector from the hexagon centre to the midpoint of
    the edge is [- radius * sqrt 3 / 2]: negative, so the vector points
    towards the interior, not away from it. *)
Theorem getEdgeNormal_points_inward (hexagon : Hexagon) (edge : LineSegment) :
  0 < radius hexagon ->
  In edge (getHexagonEdges hexagon) ->
  exists n,
    getEdgeNormal edge = Some n /\
    vectorLength n = 1 /\
    dotProduct n (segmentVector edge) = 0 /\
    dotProduct n (vectorFromTo (center hexagon) (segmentMidpoint edge))
      = - (radius hexagon * (sqrt 3 / 2)) /\
    dotProduct n (vectorFromTo (center hexagon) (segmentMidpoint edge)) < 0.
Proof.
  intros HR Hin.
  destruct (hexagon_edge_shape hexagon edge Hin) as (ca & sa & Hu & ->).
  pose proof sqrt3_sqr as Hq. pose proof sqrt3_pos as Hq0.
  set (q := sqrt 3) in *. set (r := radius hexagon) in *.
  set (cx := x (center hexagon)). set (cy := y (center hexagon)).
  unfold getEdgeNormal; simpl.
  set (ex := cx + r * (ca / 2 - sa * (q / 2)) - (cx + r * ca)).
  set (ey := cy + r * (sa / 2 + ca * (q / 2)) - (cy + r * sa)).
  assert (Hl : sqrt (- ey * - ey + ex * ex) = r).
  { replace (- ey * - ey + ex * ex)
      with (r * r * ((ca * ca + sa * sa) * (1 + q * q) / 4))
      by (unfold ex, ey; field).
    rewrite Hu, Hq.
    replace (r * r * (1 * (1 + 3) / 4)) with (r * r) by field.
    apply sqrt_square; lra. }
  pose proof (normalized_unit (- ey) ex) as Hunit. simpl in Hunit.
  rewrite Hl in *.
  replace (Rltb 0 r) with true by (symmetry; apply Rltb_true; exact HR).
  rewrite !checked_div_nonzero by lra.
  eexists. split; [reflexivity|].
  split; [apply Hunit; exact HR|].
  assert (Hdot :
    dotProduct {| x := - ey / r; y := ex / r |}
      (vectorFromTo (center hexagon)
         (segmentMidpoint
            {| start := {| x := cx + r * ca; y := cy + r * sa |};
               end_ := {| x := cx + r * (ca / 2 - sa * (q / 2));
                          y := cy + r * (sa / 2 + ca * (q / 2)) |} |}))
    = - (r * (q / 2))).
  { unfold dotProduct, vectorFromTo, segmentMidpoint; simpl.
    fold cx cy.
    replace (- ey / r) with (- (sa / 2 + ca * (q / 2) - sa))
      by (unfold ey; field; lra).
    replace (ex / r) with (ca / 2 - sa * (q / 2) - ca)
      by (unfold ex; field; lra).
    transitivity (- (r * (q / 2)) * (ca * ca + sa * sa)); [field|].
    rewrite Hu; ring. }
  split; [|split].
  - unfold dotProduct, segmentVector; simpl. fold ex ey. field. lra.
  - exact Hdot.
  - rewrite Hdot. nra.
Qed.

Lemma unitHexagon_first_edge :
  nth 0 (getHexagonEdges unitHexagon) unitSegment = unitHexagonEdge0.
Proof.
  simpl. unfold hexagonVertex, unitHexagonEdge0; simpl.
  replace (0 + PI / 3 * 0) with 0 by ring.
  replace (0 + PI / 3 * 1) with (PI / 3) by ring.
  rewrite cos_0, sin_0, cos_PI3, sin_PI3.
  f_equal; apply vector_eq; simpl; field.
Qed.

Lemma getEdgeNormal_unitHexagonEdge0 :
  getEdgeNormal unitHexagonEdge0 =
    Some {| x := - (sqrt 3 / 2); y := - (1 / 2) |} /\
  vectorFromTo (center unitHexagon) (segmentMidpoint unitHexagonEdge0) =
    {| x := 3 / 4; y := sqrt 3 / 4 |} /\
  dotProduct {| x := - (sqrt 3 / 2); y := - (1 / 2) |}
             {| x := 3 / 4; y := sqrt 3 / 4 |} = - (sqrt 3 / 2) /\
  - (sqrt 3 / 2) < 0.
Proof.
  pose proof sqrt3_sqr as Hq. pose proof sqrt3_pos as Hq0.
  split; [|split; [|split]].
  - unfold getEdgeNormal, unitHexagonEdge0; simpl.
    assert (Hl : sqrt (- (sqrt 3 / 2 - 0) * - (sqrt 3 / 2 - 0)
                       + (1 / 2 - 1) * (1 / 2 - 1)) = 1).
    { replace (- (sqrt 3 / 2 - 0) * - (sqrt 3 / 2 - 0)
               + (1 / 2 - 1) * (1 / 2 - 1))
        with ((sqrt 3 * sqrt 3 + 1) / 4) by field.
      rewrite Hq. replace ((3 + 1) / 4) with 1 by field. apply sqrt_1. }
    rewrite Hl.
    decide_cmp.
    rewrite !checked_div_nonzero by lra.
    f_equal. apply vector_eq; simpl; field.
  - apply vector_eq; simpl; field.
  - unfold dotProduct; simpl.
    transitivity (- (3 * sqrt 3 / 8) - sqrt 3 / 8); [field | field].
  - lra.
Qed.

Lemma getEdgeNormal_points_inward_witness :
  exists n,
    getEdgeNormal (nth 0 (getHexagonEdges unitHexagon) unitSegment) = Some n /\
    dotProduct n
      (vectorFromTo (center unitHexagon)
         (segmentMidpoint (nth 0 (getHexagonEdges unitHexagon) unitSegment)))
    < 0.
Proof.
  destruct (getEdgeNormal_points_inward unitHexagon
              (nth 0 (getHexagonEdges unitHexagon) unitSegment))
    as (n & Hn & _ & _ & _ & Hneg).
  - simpl; lra.
  - simpl. left. reflexivity.
  - exists n. split; assumption.
Defined.

(** ** The simulation step *)

Lemma collideWithEdge_no_collision
    (h : Hexagon) (w damping : R) (b : Ball) (edge : LineSegment) :
  circleSegmentCollision (position b) (Physics.radius b) edge
    = Some noCollision ->
  collideWithEdge h w damping b edge = Some b.
Proof. intros H. unfold collideWithEdge. now rewrite H. Qed.

Lemma collideWithEdges_no_collision
    (h : Hexagon) (w damping : R) (b : Ball) (edges : list LineSegment) :
  (forall edge, In edge edges ->
     circleSegmentCollision (position b) (Physics.radius b) edge
       = Some noCollision) ->
  collideWithEdges h w damping b edges = Some b.
Proof.
  induction edges as [| edge rest IH]; intros H; simpl.
  - reflexivity.
  - rewrite collideWithEdge_no_collision by (apply H; now left).
    apply IH. intros e He. apply H. now right.
Qed.

Lemma keepInsideHexagon_inside (b : Ball) (h : Hexagon) :
  isPointInHexagon (position b) h = true -> keepInsideHexagon b h = Some b.
Proof. intros H. unfold keepInsideHexagon. now rewrite H. Qed.

Lemma handleCollisions_untouched
    (damping : R) (b : Ball) (h : Hexagon) (w : R) :
  (forall edge, In edge (getHexagonEdges h) ->
     circleSegmentCollision (position b) (Physics.radius b) edge
       = Some noCollision) ->
  isPointInHexagon (position b) h = true ->
  handleCollisions damping b h w = Some b.
Proof.
  intros Hedges Hin. unfold handleCollisions.
  rewrite collideWithEdges_no_collision by exact Hedges.
  now apply keepInsideHexagon_inside.
Qed.

(** *** No step divides by zero *)

Lemma normalizeVector_total (v : Vector2D) :
  exists u, normalizeVector v = Some u.
Proof.
  unfold normalizeVector.
  destruct (Reqb (vectorLength v) 0) eqn:E; [eauto|].
  apply Reqb_false in E. rewrite checked_div_nonzero by exact E. eauto.
Qed.

Lemma getEdgeNormal_total (edge : LineSegment) :
  exists n, getEdgeNormal edge = Some n.
Proof.
  unfold getEdgeNormal; simpl.
  destruct (Rltb 0 _) eqn:E; [|eauto].
  apply Rltb_true in E. rewrite !checked_div_nonzero by lra. eauto.
Qed.

Lemma collideWithEdge_total
    (h : Hexagon) (w damping : R) (b : Ball) (edge : LineSegment) :
  exists b', collideWithEdge h w damping b edge = Some b'.
Proof.
  unfold collideWithEdge.
  destruct (circleSegmentCollision_total (position b) (Physics.radius b) edge)
    as (res & ->).
  destruct (collided res), (normal res), (contactPoint res); eauto.
  destruct (depth res); eauto.
  destruct (Reqb _ 0); eauto.
Qed.

Lemma collideWithEdges_total
    (h : Hexagon) (w damping : R) (edges : list LineSegment) (b : Ball) :
  exists b', collideWithEdges h w damping b edges = Some b'.
Proof.
  revert b. induction edges as [| edge rest IH]; intros b; simpl.
  - eauto.
  - destruct (collideWithEdge_total h w damping b edge) as (b1 & ->).
    apply IH.
Qed.

Lemma keepInsideHexagon_total (b : Ball) (h : Hexagon) :
  exists b', keepInsideHexagon b h = Some b'.
Proof.
  unfold keepInsideHexagon.
  destruct (isPointInHexagon (position b) h); simpl; [eauto|].
  destruct (Rltb 0 _) eqn:E; [|eauto].
  apply Rltb_true in E. rewrite !checked_div_nonzero by lra. eauto.
Qed.

Lemma handleCollisions_total (damping : R) (b : Ball) (h : Hexagon) (w : R) :
  exists b', handleCollisions damping b h w = Some b'.
Proof.
  unfold handleCollisions.
  destruct (collideWithEdges_total h w damping (getHexagonEdges h) b)
    as (b1 & ->).
  apply keepInsideHexagon_total.
Qed.

Lemma simulationStep_total
    (params : PhysicsParams) (w dt : R) (st : SimState) :
  exists st', simulationStep params w dt st = Some st'.
Proof.
  unfold simulationStep.
  destruct (handleCollisions_total (bounceDamping params)
              (updateBallPosition
                 (applyAirFriction
                    (applyGravity (ball st) (gravity params) dt)
                    (airFriction params) dt) dt)
              {| center := center (hexagon st);
                 radius := radius (hexagon st);
                 rotation := rotation (hexagon st) + w * dt |} w)
    as (b4 & ->).
  destruct (clampMinVelocity_total b4 (minVelocity params)) as (b5 & ->).
  eauto.
Qed.

(** *** The game loop with [dt = 0] *)

(** C3.  A step of the game loop with [dt = 0] leaves the position and the
    velocity of the ball and the rotation of the hexagon exactly as they
    are, paused or not: the guard [deltaTime > 0] is false, so the state
    that comes out is the state that went in. *)
Theorem gameLoop_dt_zero_unchanged
    (isPaused : bool) (params : PhysicsParams) (w : R) (st : SimState) :
  exists st',
    gameLoopUpdate isPaused params w 0 st = Some st' /\
    position (ball st') = position (ball st) /\
    velocity (ball st') = velocity (ball st) /\
    rotation (hexagon st') = rotation (hexagon st) /\
    st' = st.
Proof.
  exists st.
  assert (E : gameLoopUpdate isPaused params w 0 st = Some st).
  { unfold gameLoopUpdate.
    decide_cmp.
    now rewrite andb_false_r. }
  repeat split; [exact E | ..]; reflexivity.
Qed.

(** * Further properties of the code *)

(** ** Vector algebra *)

Lemma vectorLength_scale_abs (v : Vector2D) (k : R) :
  vectorLength (scaleVector v k) = vectorLength v * Rabs k.
Proof.
  unfold vectorLength, scaleVector; simpl.
  replace (x v * k * (x v * k) + y v * k * (y v * k))
    with ((x v * x v + y v * y v) * Rsqr k) by (unfold Rsqr; ring).
  rewrite sqrt_mult_alt by apply sum_squares_nonneg.
  now rewrite sqrt_Rsqr_abs.
Qed.

(** Cauchy-Schwarz, in the form used below. *)
Lemma dotProduct_le_lengths (a b : Vector2D) :
  dotProduct a b <= vectorLength a * vectorLength b.
Proof.
  pose proof (vectorLength_nonneg a) as Ha.
  pose proof (vectorLength_nonneg b) as Hb.
  pose proof (vectorLength_sqr a) as Sa.
  pose proof (vectorLength_sqr b) as Sb.
  unfold dotProduct.
  set (la := vectorLength a) in *. set (lb := vectorLength b) in *.
  destruct (Rle_lt_dec (x a * x b + y a * y b) (la * lb)) as [H | H];
    [exact H | exfalso].
  assert (Hprod : 0 <= la * lb) by (apply Rmult_le_pos; assumption).
  assert (Hsq : (la * lb) * (la * lb)
                < (x a * x b + y a * y b) * (x a * x b + y a * y b)) by nra.
  assert (Hcs : (x a * x b + y a * y b) * (x a * x b + y a * y b)
                <= (la * la) * (lb * lb)).
  { rewrite Sa, Sb.
    pose proof (Rle_0_sqr (x a * y b - y a * x b)) as Q. unfold Rsqr in Q.
    nra. }
  nra.
Qed.

(** X1.  [normalizeVector] always answers.  A vector of length zero gives
    the zero vector; any other vector gives the vector divided by its
    length, which has length 1 and gives the input back when it is scaled
    by the length. *)
Theorem normalizeVector_spec (v : Vector2D) :
  exists u,
    normalizeVector v = Some u /\
    (vectorLength v = 0 -> u = zeroVector) /\
    (vectorLength v <> 0 ->
       u = scaleVector v (1 / vectorLength v) /\
       vectorLength u = 1 /\
       scaleVector u (vectorLength v) = v).
Proof.
  unfold normalizeVector.
  destruct (Reqb (vectorLength v) 0) eqn:E.
  - apply Reqb_true in E. exists zeroVector.
    split; [reflexivity|]. split; [reflexivity | contradiction].
  - apply Reqb_false in E. rewrite checked_div_nonzero by exact E.
    pose proof (vectorLength_nonneg v) as Hpos.
    eexists. split; [reflexivity|]. split; [contradiction|].
    intros _. split; [reflexivity|]. split.
    + rewrite vectorLength_scale.
      * field; exact E.
      * apply Rlt_le, Rdiv_lt_0_compat; lra.
    + apply vector_eq; simpl; field; exact E.
Qed.

Lemma normalizeVector_spec_witness :
  exists u,
    normalizeVector {| x := 3; y := 4 |} = Some u /\ vectorLength u = 1.
Proof.
  destruct (normalizeVector_spec {| x := 3; y := 4 |}) as (u & E & _ & H).
  exists u. split; [exact E|].
  apply H. rewrite vectorLength_3_4. lra.
Defined.

(** ** More on [calculateBounceVelocity] *)

Lemma normalSpeedOf_rest (v n : Vector2D) :
  normalSpeedOf v n zeroVector = dotProduct v n.
Proof. unfold normalSpeedOf, dotProduct; simpl; ring. Qed.

Lemma bounce_rest_approaching (v n : Vector2D) (d : R) :
  dotProduct v n <= 0 ->
  calculateBounceVelocity v n zeroVector d =
    addVectors v (scaleVector n (- 2 * d * dotProduct v n)).
Proof.
  intros H.
  rewrite calculateBounceVelocity_approaching
    by (rewrite normalSpeedOf_rest; exact H).
  rewrite normalSpeedOf_rest. apply vector_eq; simpl; ring.
Qed.

(** X2.  Against a wall at rest and with a damping between 0 and 1 a bounce
    never makes the ball faster; with damping 1 the speed is kept. *)
Theorem bounce_rest_speed_not_increased (v n : Vector2D) (d : R) :
  vectorLength n = 1 ->
  0 <= d <= 1 ->
  vectorLength (calculateBounceVelocity v n zeroVector d) <= vectorLength v /\
  (d = 1 ->
   vectorLength (calculateBounceVelocity v n zeroVector d) = vectorLength v).
Proof.
  intros Hn Hd. apply unit_vector_sqr in Hn.
  destruct (Rlt_le_dec 0 (dotProduct v n)) as [Hs | Hs].
  - rewrite calculateBounceVelocity_separating
      by (rewrite normalSpeedOf_rest; exact Hs).
    split; [right|]; reflexivity.
  - rewrite bounce_rest_approaching by exact Hs.
    assert (E : forall k,
      x (addVectors v (scaleVector n (- 2 * k * dotProduct v n)))
        * x (addVectors v (scaleVector n (- 2 * k * dotProduct v n)))
      + y (addVectors v (scaleVector n (- 2 * k * dotProduct v n)))
        * y (addVectors v (scaleVector n (- 2 * k * dotProduct v n)))
      = (x v * x v + y v * y v)
        - 4 * k * (1 - k) * (dotProduct v n * dotProduct v n)).
    { intros k. unfold dotProduct in *; simpl.
      transitivity
        ((x v * x v + y v * y v)
         - 4 * k * (x v * x n + y v * y n) * (x v * x n + y v * y n)
         + 4 * k * k * (x v * x n + y v * y n) * (x v * x n + y v * y n)
           * (x n * x n + y n * y n)); [ring|].
      rewrite Hn. ring. }
    split.
    + unfold vectorLength at 1 2. apply sqrt_le_1_alt. rewrite E.
      pose proof (Rle_0_sqr (dotProduct v n)) as Q. unfold Rsqr in Q.
      assert (0 <= d * (1 - d)) by nra. nra.
    + intros ->. unfold vectorLength at 1 2. f_equal. rewrite E. ring.
Qed.

Lemma bounce_rest_speed_not_increased_witness :
  vectorLength
    (calculateBounceVelocity {| x := 3; y := -4 |} {| x := 0; y := 1 |}
       zeroVector (85 / 100))
  <= vectorLength {| x := 3; y := -4 |}.
Proof.
  apply (bounce_rest_speed_not_increased {| x := 3; y := -4 |}
           {| x := 0; y := 1 |} (85 / 100)).
  - exact unit_y_length.
  - lra.
Defined.

(** X3.  With a damping of at least 1/2 and a wall at rest, a velocity that
    has been bounced off a wall is not bounced again by the same wall: the
    second call returns what the first one returned. *)
Theorem bounce_rest_idempotent (v n : Vector2D) (d : R) :
  vectorLength n = 1 ->
  1 / 2 <= d ->
  calculateBounceVelocity
    (calculateBounceVelocity v n zeroVector d) n zeroVector d
  = calculateBounceVelocity v n zeroVector d.
Proof.
  intros Hn Hd. apply unit_vector_sqr in Hn.
  destruct (Rlt_le_dec 0 (dotProduct v n)) as [Hs | Hs].
  - assert (E : calculateBounceVelocity v n zeroVector d = v).
    { apply calculateBounceVelocity_separating.
      rewrite normalSpeedOf_rest; exact Hs. }
    now rewrite !E.
  - rewrite (bounce_rest_approaching v n d Hs).
    set (v' := addVectors v (scaleVector n (- 2 * d * dotProduct v n))).
    assert (E : dotProduct v' n = (1 - 2 * d) * dotProduct v n).
    { unfold v', dotProduct in *; simpl.
      transitivity
        ((x v * x n + y v * y n)
         - 2 * d * (x v * x n + y v * y n) * (x n * x n + y n * y n));
        [ring|].
      rewrite Hn. ring. }
    destruct (Rlt_le_dec 0 (dotProduct v' n)) as [Hs' | Hs'].
    + apply calculateBounceVelocity_separating.
      rewrite normalSpeedOf_rest; exact Hs'.
    + assert (E0 : dotProduct v' n = 0) by nra.
      rewrite (bounce_rest_approaching v' n d Hs').
      rewrite E0. apply vector_eq; simpl; ring.
Qed.

Lemma bounce_rest_idempotent_witness :
  let v' :=
    calculateBounceVelocity {| x := 3; y := -4 |} {| x := 0; y := 1 |}
      zeroVector (85 / 100) in
  calculateBounceVelocity v' {| x := 0; y := 1 |} zeroVector (85 / 100) = v'.
Proof.
  apply (bounce_rest_idempotent {| x := 3; y := -4 |}
           {| x := 0; y := 1 |} (85 / 100)).
  - exact unit_y_length.
  - lra.
Defined.

(** ** More on the integration stages *)

Lemma clampMinVelocity_rescaled (b : Ball) (minV : R) :
  0 < vectorLength (velocity b) < minV ->
  clampMinVelocity b minV =
    Some (set_velocity b
            (scaleVector (velocity b) (minV / vectorLength (velocity b)))).
Proof.
  intros [Hpos Hlt]. unfold clampMinVelocity.
  apply Rltb_true in Hpos, Hlt. rewrite Hpos, Hlt. simpl.
  apply Rltb_true in Hpos. now rewrite checked_div_nonzero by lra.
Qed.

(** X4.  After [clampMinVelocity] with a threshold that is not negative the
    ball is at rest or at least as fast as the threshold, and clamping it
    again changes nothing. *)
Theorem clampMinVelocity_floor_idempotent (b : Ball) (minV : R) :
  0 <= minV ->
  exists b',
    clampMinVelocity b minV = Some b' /\
    (vectorLength (velocity b') = 0 \/ minV <= vectorLength (velocity b')) /\
    clampMinVelocity b' minV = Some b'.
Proof.
  intros HminV.
  pose proof (vectorLength_nonneg (velocity b)) as Hpos.
  destruct (Rle_lt_dec minV (vectorLength (velocity b))) as [Hfast | Hslow].
  - exists b. rewrite clampMinVelocity_unchanged by (right; exact Hfast).
    auto.
  - destruct (Req_dec_T (vectorLength (velocity b)) 0) as [Hz | Hnz].
    + exists b. rewrite clampMinVelocity_unchanged by (left; exact Hz).
      auto.
    + rewrite clampMinVelocity_rescaled by lra.
      eexists. split; [reflexivity|].
      assert (E : vectorLength
                    (scaleVector (velocity b)
                       (minV / vectorLength (velocity b))) = minV).
      { rewrite vectorLength_scale.
        - field; exact Hnz.
        - apply Rlt_le, Rdiv_lt_0_compat; lra. }
      split.
      * right. simpl. rewrite E. lra.
      * apply clampMinVelocity_unchanged. right. simpl. rewrite E. lra.
Qed.

Lemma clampMinVelocity_floor_idempotent_witness :
  exists b',
    clampMinVelocity (centredBall {| x := 3; y := 4 |}) 50 = Some b' /\
    clampMinVelocity b' 50 = Some b'.
Proof.
  destruct (clampMinVelocity_floor_idempotent
              (centredBall {| x := 3; y := 4 |}) 50) as (b' & E & _ & E');
    [lra|].
  exists b'. split; assumption.
Defined.

(** X5.  [applyAirFriction] multiplies the speed by [|1 - airFriction * dt|]
    and leaves the position alone; the ball does not get faster as long as
    [airFriction * dt] stays between 0 and 2, and it stops when the product
    is 1. *)
Theorem applyAirFriction_speed (b : Ball) (f dt : R) :
  vectorLength (velocity (applyAirFriction b f dt))
    = vectorLength (velocity b) * Rabs (1 - f * dt) /\
  position (applyAirFriction b f dt) = position b /\
  (0 <= f * dt <= 2 ->
   vectorLength (velocity (applyAirFriction b f dt))
     <= vectorLength (velocity b)) /\
  (f * dt = 1 -> velocity (applyAirFriction b f dt) = zeroVector).
Proof.
  assert (E : vectorLength (velocity (applyAirFriction b f dt))
              = vectorLength (velocity b) * Rabs (1 - f * dt)).
  { apply (vectorLength_scale_abs (velocity b) (1 - f * dt)). }
  split; [exact E|]. split; [reflexivity|]. split.
  - intros H. rewrite E.
    pose proof (vectorLength_nonneg (velocity b)) as Hpos.
    assert (Rabs (1 - f * dt) <= 1) by (apply Rabs_le; lra).
    nra.
  - intros H. unfold applyAirFriction; simpl. rewrite H.
    apply vector_eq; simpl; ring.
Qed.

Lemma applyAirFriction_speed_witness :
  vectorLength
    (velocity (applyAirFriction (centredBall {| x := 3; y := 4 |})
                 (2 / 100) (33 / 1000)))
  <= vectorLength (velocity (centredBall {| x := 3; y := 4 |})).
Proof.
  apply (applyAirFriction_speed (centredBall {| x := 3; y := 4 |})
           (2 / 100) (33 / 1000)).
  lra.
Defined.

(** ** The wall velocity *)

(** X6.  The velocity of a point of the rotating wall is perpendicular to
    the vector from the hexagon centre to the point, and its length is the
    distance to the centre times [|angularVelocity|]. *)
Theorem getWallVelocity_tangential (p : Vector2D) (h : Hexagon) (w : R) :
  dotProduct (getWallVelocity p h w) (vectorFromTo (center h) p) = 0 /\
  vectorLength (getWallVelocity p h w)
    = euclideanDistance p (center h) * Rabs w.
Proof.
  split.
  - unfold dotProduct, getWallVelocity, vectorFromTo; simpl. ring.
  - unfold getWallVelocity, euclideanDistance, vectorLength; simpl.
    set (rx := x p - x (center h)). set (ry := y p - y (center h)).
    replace (- ry * w * (- ry * w) + rx * w * (rx * w))
      with ((rx * rx + ry * ry) * Rsqr w) by (unfold Rsqr; ring).
    rewrite sqrt_mult_alt by apply sum_squares_nonneg.
    now rewrite sqrt_Rsqr_abs.
Qed.

(** ** More on the hexagon *)

Lemma getHexagonEdges_nth (h : Hexagon) (i : nat) :
  (i < 6)%nat ->
  nth i (getHexagonEdges h) unitSegment =
    {| start := nth i (getHexagonVertices h) zeroVector;
       end_ := nth ((i + 1) mod 6) (getHexagonVertices h) zeroVector |}.
Proof.
  intros Hi. unfold getHexagonEdges.
  do 6 (destruct i as [| i]; [reflexivity|]). lia.
Qed.

Lemma sqrt_sqr_abs (r : R) : sqrt (r * r) = Rabs r.
Proof. apply (sqrt_Rsqr_abs r). Qed.

(** X7.  The hexagon is regular and closed: there are six edges, every edge
    starts at distance [|radius|] from the centre, is [|radius|] long, and
    ends where the next edge, the first one after the sixth, starts. *)
Theorem hexagon_edges_regular (h : Hexagon) (i : nat) :
  (i < 6)%nat ->
  let edges := getHexagonEdges h in
  let edge := nth i edges unitSegment in
  length edges = 6%nat /\
  euclideanDistance (start edge) (center h) = Rabs (radius h) /\
  vectorLength (segmentVector edge) = Rabs (radius h) /\
  end_ edge = start (nth ((i + 1) mod 6) edges unitSegment).
Proof.
  intros Hi edges edge.
  assert (Hj : ((i + 1) mod 6 < 6)%nat) by (apply Nat.mod_upper_bound; lia).
  unfold edge, edges.
  rewrite (getHexagonEdges_nth h i Hi),
          (getHexagonEdges_nth h _ Hj).
  split; [reflexivity|].
  destruct (hexagon_vertex_pair h i Hi) as (ca & sa & Hu & -> & ->).
  pose proof sqrt3_sqr as Hq.
  set (r := radius h). set (q := sqrt 3) in *.
  split; [|split; [|reflexivity]].
  - unfold euclideanDistance, vectorLength; simpl.
    replace ((x (center h) + r * ca - x (center h))
               * (x (center h) + r * ca - x (center h))
             + (y (center h) + r * sa - y (center h))
               * (y (center h) + r * sa - y (center h)))
      with (r * r * (ca * ca + sa * sa)) by ring.
    rewrite Hu, Rmult_1_r. apply sqrt_sqr_abs.
  - unfold vectorLength, segmentVector; simpl.
    match goal with
    | |- sqrt ?e = _ =>
        replace e with (r * r * ((ca * ca + sa * sa) * (1 + q * q) / 4))
          by field
    end.
    rewrite Hu, Hq.
    replace (r * r * (1 * (1 + 3) / 4)) with (r * r) by field.
    apply sqrt_sqr_abs.
Qed.

Lemma hexagon_edges_regular_witness :
  vectorLength
    (segmentVector (nth 5 (getHexagonEdges initialHexagon) unitSegment))
  = Rabs (radius initialHexagon).
Proof.
  apply (hexagon_edges_regular initialHexagon 5). lia.
Defined.

(** The cross product of [isPointInHexagon] on an edge, with the point
    given by its offset [(dx, dy)] from the centre: the radius times the
    gap between the apothem and the component of the offset along the
    direction [(mx, my)] that leaves the hexagon through the edge. *)
Lemma edgeCrossProduct_offset (h : Hexagon) (p : Vector2D) (i : nat) :
  (i < 6)%nat ->
  exists m,
    vectorLength m = 1 /\
    edgeCrossProduct p (getHexagonVertices h) i =
      radius h * (apothem h - dotProduct (vectorFromTo (center h) p) m).
Proof.
  intros Hi.
  destruct (hexagon_vertex_pair h i Hi) as (ca & sa & Hu & H1 & H2).
  pose proof sqrt3_sqr as Hq.
  exists {| x := - sa / 2 + ca * (sqrt 3 / 2);
            y := ca / 2 + sa * (sqrt 3 / 2) |}.
  split.
  - unfold vectorLength; simpl.
    replace ((- sa / 2 + ca * (sqrt 3 / 2)) * (- sa / 2 + ca * (sqrt 3 / 2))
             + (ca / 2 + sa * (sqrt 3 / 2)) * (ca / 2 + sa * (sqrt 3 / 2)))
      with ((ca * ca + sa * sa) * (1 + sqrt 3 * sqrt 3) / 4) by field.
    rewrite Hu, Hq. replace (1 * (1 + 3) / 4) with 1 by field.
    apply sqrt_1.
  - unfold edgeCrossProduct. rewrite H1, H2.
    unfold apothem, dotProduct, vectorFromTo; simpl.
    transitivity
      (radius h
       * (radius h * (sqrt 3 / 2) * (ca * ca + sa * sa)
          - ((x p - x (center h)) * (- sa / 2 + ca * (sqrt 3 / 2))
             + (y p - y (center h)) * (ca / 2 + sa * (sqrt 3 / 2)))));
      [field|].
    rewrite Hu. ring.
Qed.

(** [isPointInHexagon] answers [true] when no cross product is negative. *)
Lemma isPointInHexagon_true_intro (h : Hexagon) (p : Vector2D) :
  (forall i, (i < 6)%nat ->
     0 <= edgeCrossProduct p (getHexagonVertices h) i) ->
  isPointInHexagon p h = true.
Proof.
  intros H. unfold isPointInHexagon.
  apply forallb_forall. intros i Hi. apply in_seq in Hi.
  apply negb_true_iff, Rltb_false. apply H. lia.
Qed.

Lemma edgeCrossProduct_center (h : Hexagon) (i : nat) :
  (i < 6)%nat ->
  edgeCrossProduct (center h) (getHexagonVertices h) i
  = radius h * radius h * (sqrt 3 / 2).
Proof.
  intros Hi.
  destruct (edgeCrossProduct_offset h (center h) i Hi) as (m & _ & ->).
  unfold apothem, dotProduct, vectorFromTo; simpl. ring.
Qed.

Lemma edgeCrossProduct_within_apothem (h : Hexagon) (p : Vector2D) (i : nat) :
  (i < 6)%nat ->
  0 <= radius h ->
  euclideanDistance p (center h) <= apothem h ->
  0 <= edgeCrossProduct p (getHexagonVertices h) i.
Proof.
  intros Hi HR Hd.
  destruct (edgeCrossProduct_offset h p i Hi) as (m & Hm & ->).
  pose proof (dotProduct_le_lengths (vectorFromTo (center h) p) m) as Hcs.
  rewrite Hm, Rmult_1_r in Hcs.
  assert (E : vectorLength (vectorFromTo (center h) p)
              = euclideanDistance p (center h)) by reflexivity.
  rewrite E in Hcs.
  apply Rmult_le_pos; lra.
Qed.

(** X8.  The centre of a hexagon is inside it, whatever the radius and the
    rotation. *)
Theorem isPointInHexagon_center_always (h : Hexagon) :
  isPointInHexagon (center h) h = true.
Proof.
  apply isPointInHexagon_true_intro. intros i Hi.
  rewrite edgeCrossProduct_center by exact Hi.
  pose proof sqrt3_pos as Hq.
  pose proof (Rle_0_sqr (radius h)) as Hr. unfold Rsqr in Hr.
  apply Rmult_le_pos; lra.
Qed.

(** X9.  Every point whose distance to the centre is at most the apothem,
    that is every point of the inscribed disc, is inside the hexagon. *)
Theorem isPointInHexagon_inscribed_disc (h : Hexagon) (p : Vector2D) :
  0 <= radius h ->
  euclideanDistance p (center h) <= apothem h ->
  isPointInHexagon p h = true.
Proof.
  intros HR Hd.
  apply isPointInHexagon_true_intro. intros i Hi.
  now apply edgeCrossProduct_within_apothem.
Qed.

Lemma sqrt3_lower : 17 / 10 < sqrt 3.
Proof.
  pose proof sqrt3_pos. pose proof sqrt3_sqr.
  destruct (Rlt_le_dec (17 / 10) (sqrt 3)); [assumption | nra].
Qed.

Lemma isPointInHexagon_inscribed_disc_witness :
  isPointInHexagon {| x := 400; y := 200 |} initialHexagon = true.
Proof.
  apply (isPointInHexagon_inscribed_disc initialHexagon
           {| x := 400; y := 200 |}).
  - simpl; lra.
  - unfold euclideanDistance, vectorLength, apothem; simpl.
    replace ((400 - 400) * (400 - 400) + (200 - 300) * (200 - 300))
      with (100 * 100) by ring.
    rewrite sqrt_square by lra.
    pose proof sqrt3_lower. lra.
Defined.

(** [isPointInHexagon] answers [false] as soon as one cross product is
    negative. *)
Lemma isPointInHexagon_false_intro (h : Hexagon) (p : Vector2D) (i : nat) :
  (i < 6)%nat ->
  edgeCrossProduct p (getHexagonVertices h) i < 0 ->
  isPointInHexagon p h = false.
Proof.
  intros Hi Hneg.
  destruct (isPointInHexagon p h) eqn:E; [exfalso | reflexivity].
  unfold isPointInHexagon in E. rewrite forallb_forall in E.
  specialize (E i (proj2 (in_seq 6 0 i) ltac:(lia))).
  apply negb_true_iff, Rltb_false in E. lra.
Qed.

Lemma edgeCrossProduct_beyond_vertex (h : Hexagon) (i : nat) (k : R) :
  (i < 6)%nat ->
  0 < radius h ->
  1 < k ->
  edgeCrossProduct
    (pointOnSegment
       {| start := center h;
          end_ := nth i (getHexagonVertices h) zeroVector |} k)
    (getHexagonVertices h) i < 0.
Proof.
  intros Hi HR Hk. unfold edgeCrossProduct.
  destruct (hexagon_vertex_pair h i Hi) as (ca & sa & Hu & -> & ->).
  unfold pointOnSegment; simpl.
  pose proof sqrt3_pos as Hq.
  set (r := radius h) in *. set (q := sqrt 3) in *.
  set (cx := x (center h)). set (cy := y (center h)).
  match goal with
  | |- ?e < 0 =>
      replace e with (- (r * r * (k - 1) * (q / 2) * (ca * ca + sa * sa)))
        by field
  end.
  rewrite Hu.
  assert (0 < r * r * (k - 1) * (q / 2)).
  { repeat apply Rmult_lt_0_compat; lra. }
  lra.
Qed.

(** X10.  A point on the ray from the centre through a vertex, beyond the
    vertex, is outside the hexagon. *)
Theorem isPointInHexagon_beyond_vertex (h : Hexagon) (i : nat) (k : R) :
  (i < 6)%nat ->
  0 < radius h ->
  1 < k ->
  isPointInHexagon
    (pointOnSegment
       {| start := center h;
          end_ := nth i (getHexagonVertices h) zeroVector |} k) h
  = false.
Proof.
  intros Hi HR Hk.
  apply (isPointInHexagon_false_intro h _ i Hi).
  now apply edgeCrossProduct_beyond_vertex.
Qed.

Lemma isPointInHexagon_beyond_vertex_witness :
  isPointInHexagon
    (pointOnSegment
       {| start := center initialHexagon;
          end_ := nth 0 (getHexagonVertices initialHexagon) zeroVector |}
       (11 / 10)) initialHexagon
  = false.
Proof.
  apply (isPointInHexagon_beyond_vertex initialHexagon 0 (11 / 10)).
  - lia.
  - simpl; lra.
  - lra.
Defined.

(** *** Turning the hexagon *)

Lemma hexagonVertex_turn_sixth (h : Hexagon) (i : nat) :
  (i < 6)%nat ->
  hexagonVertex (rotateHexagon h (PI / 3)) i
  = hexagonVertex h ((i + 1) mod 6).
Proof.
  intros Hi. unfold hexagonVertex, rotateHexagon.
  cbn [center radius rotation].
  destruct (next_vertex_angle (rotation h) i Hi) as [Hc Hs].
  rewrite Hc, Hs.
  replace (rotation h + PI / 3 + PI / 3 * INR i)
    with (rotation h + PI / 3 * INR i + PI / 3) by ring.
  reflexivity.
Qed.

Lemma hexagonVertex_full_turns (h : Hexagon) (k i : nat) :
  hexagonVertex (rotateHexagon h (2 * INR k * PI)) i = hexagonVertex h i.
Proof.
  unfold hexagonVertex, rotateHexagon; simpl.
  replace (rotation h + 2 * INR k * PI + PI / 3 * INR i)
    with (rotation h + PI / 3 * INR i + 2 * INR k * PI) by ring.
  now rewrite cos_period, sin_period.
Qed.

(** X11.  The rotation angle only counts modulo a full turn: after any
    number of whole turns, forwards or backwards, the hexagon has the same
    vertices and edges and contains the same points. *)
Theorem hexagon_full_turns (h : Hexagon) (k : nat) (p : Vector2D) :
  (getHexagonVertices (rotateHexagon h (2 * INR k * PI))
     = getHexagonVertices h /\
   getHexagonEdges (rotateHexagon h (2 * INR k * PI)) = getHexagonEdges h /\
   isPointInHexagon p (rotateHexagon h (2 * INR k * PI))
     = isPointInHexagon p h) /\
  (getHexagonVertices (rotateHexagon h (- (2 * INR k * PI)))
     = getHexagonVertices h /\
   getHexagonEdges (rotateHexagon h (- (2 * INR k * PI))) = getHexagonEdges h /\
   isPointInHexagon p (rotateHexagon h (- (2 * INR k * PI)))
     = isPointInHexagon p h).
Proof.
  assert (Hfwd : forall g,
            getHexagonVertices (rotateHexagon g (2 * INR k * PI))
            = getHexagonVertices g).
  { intros g. unfold getHexagonVertices. apply map_ext.
    intros i. apply hexagonVertex_full_turns. }
  assert (Hback : getHexagonVertices (rotateHexagon h (- (2 * INR k * PI)))
                  = getHexagonVertices h).
  { rewrite <- (Hfwd (rotateHexagon h (- (2 * INR k * PI)))).
    f_equal. destruct h as [c r th]. unfold rotateHexagon; simpl.
    f_equal. ring. }
  split; (split; [|split]).
  - apply Hfwd.
  - unfold getHexagonEdges. now rewrite Hfwd.
  - unfold isPointInHexagon. now rewrite Hfwd.
  - exact Hback.
  - unfold getHexagonEdges. now rewrite Hback.
  - unfold isPointInHexagon. now rewrite Hback.
Qed.

(** X12.  Turning the hexagon by a sixth of a turn moves every vertex to
    the place of the next one, so the hexagon contains the same points. *)
Theorem isPointInHexagon_turn_sixth (h : Hexagon) (p : Vector2D) :
  (forall i, (i < 6)%nat ->
     nth i (getHexagonVertices (rotateHexagon h (PI / 3))) zeroVector
     = nth ((i + 1) mod 6) (getHexagonVertices h) zeroVector) /\
  isPointInHexagon p (rotateHexagon h (PI / 3)) = isPointInHexagon p h.
Proof.
  assert (Hv : forall i, (i < 6)%nat ->
     nth i (getHexagonVertices (rotateHexagon h (PI / 3))) zeroVector
     = nth ((i + 1) mod 6) (getHexagonVertices h) zeroVector).
  { intros i Hi.
    rewrite getHexagonVertices_nth by exact Hi.
    rewrite getHexagonVertices_nth by (apply Nat.mod_upper_bound; lia).
    now apply hexagonVertex_turn_sixth. }
  split; [exact Hv|].
  assert (Hc : forall i, (i < 6)%nat ->
     edgeCrossProduct p (getHexagonVertices (rotateHexagon h (PI / 3))) i
     = edgeCrossProduct p (getHexagonVertices h) ((i + 1) mod 6)).
  { intros i Hi. unfold edgeCrossProduct.
    assert (Hj : ((i + 1) mod 6 < 6)%nat)
      by (apply Nat.mod_upper_bound; lia).
    now rewrite (Hv i Hi), (Hv _ Hj). }
  unfold isPointInHexagon. cbn [seq forallb].
  rewrite (Hc 0%nat), (Hc 1%nat), (Hc 2%nat), (Hc 3%nat), (Hc 4%nat),
    (Hc 5%nat) by lia.
  change ((0 + 1) mod 6)%nat with 1%nat.
  change ((1 + 1) mod 6)%nat with 2%nat.
  change ((2 + 1) mod 6)%nat with 3%nat.
  change ((3 + 1) mod 6)%nat with 4%nat.
  change ((4 + 1) mod 6)%nat with 5%nat.
  change ((5 + 1) mod 6)%nat with 0%nat.
  set (vs := getHexagonVertices h).
  destruct (Rltb (edgeCrossProduct p vs 0) 0),
           (Rltb (edgeCrossProduct p vs 1) 0),
           (Rltb (edgeCrossProduct p vs 2) 0),
           (Rltb (edgeCrossProduct p vs 3) 0),
           (Rltb (edgeCrossProduct p vs 4) 0),
           (Rltb (edgeCrossProduct p vs 5) 0); reflexivity.
Qed.

Lemma isPointInHexagon_turn_sixth_witness :
  nth 5 (getHexagonVertices (rotateHexagon initialHexagon (PI / 3)))
    zeroVector
  = nth 0 (getHexagonVertices initialHexagon) zeroVector.
Proof.
  apply (proj1 (isPointInHexagon_turn_sixth initialHexagon zeroVector) 5%nat).
  lia.
Defined.

(** ** More on [pointToSegmentDistance] *)

Lemma closest_point_of_segment_point (s : LineSegment) (t u : R) :
  0 <= u <= 1 ->
  projectionParameter (pointOnSegment s u) s = Some t ->
  pointOnSegment s t = pointOnSegment s u.
Proof.
  intros Hu Ht. set (p := pointOnSegment s u) in *.
  pose proof (projectionParameter_nearest p s t u Ht Hu) as Hmin.
  assert (H0 : euclideanDistance p (pointOnSegment s u) = 0).
  { apply vectorLength_zero_iff; simpl. split; ring. }
  pose proof (euclideanDistance_nonneg p (pointOnSegment s t)) as Hpos.
  assert (Hd : euclideanDistance p (pointOnSegment s t) = 0) by lra.
  apply vectorLength_zero_iff in Hd. simpl in Hd. destruct Hd as [Hx Hy].
  apply vector_eq; simpl in *; lra.
Qed.

Lemma euclideanDistance_self (p : Vector2D) : euclideanDistance p p = 0.
Proof. apply vectorLength_zero_iff; simpl. split; ring. Qed.

(** X13.  For a point of the segment the distance is 0 and the closest
    point is the point itself. *)
Theorem pointToSegmentDistance_on_segment (s : LineSegment) (u : R) :
  0 <= u <= 1 ->
  pointToSegmentDistance (pointOnSegment s u) s =
    Some {| distance := 0; closestPoint := pointOnSegment s u |}.
Proof.
  intros Hu.
  destruct (projectionParameter_range (pointOnSegment s u) s)
    as (t & Ht & _).
  rewrite (pointToSegmentDistance_at _ s t Ht).
  rewrite (closest_point_of_segment_point s t u Hu Ht).
  now rewrite euclideanDistance_self.
Qed.

Lemma pointToSegmentDistance_on_segment_witness :
  pointToSegmentDistance (pointOnSegment unitSegment (1 / 2)) unitSegment =
    Some {| distance := 0;
            closestPoint := pointOnSegment unitSegment (1 / 2) |}.
Proof.
  apply (pointToSegmentDistance_on_segment unitSegment (1 / 2)). lra.
Defined.

Lemma clamp_complement (a : R) :
  Rmax 0 (Rmin 1 (1 - a)) = 1 - Rmax 0 (Rmin 1 a).
Proof.
  unfold Rmax, Rmin.
  destruct (Rle_dec 1 (1 - a)); destruct (Rle_dec 1 a);
    repeat match goal with
           | |- context [Rle_dec ?u ?v] => destruct (Rle_dec u v)
           end; lra.
Qed.

(** X14.  Walking the segment the other way changes neither the distance
    nor the closest point. *)
Theorem pointToSegmentDistance_reverse (p : Vector2D) (s : LineSegment) :
  pointToSegmentDistance p (reverseSegment s) = pointToSegmentDistance p s.
Proof.
  destruct (projectionParameter_range p s) as (t & Ht & _).
  destruct (projectionParameter_range p (reverseSegment s)) as (t' & Ht' & _).
  rewrite (pointToSegmentDistance_at p s t Ht),
          (pointToSegmentDistance_at p _ t' Ht').
  assert (E : pointOnSegment (reverseSegment s) t' = pointOnSegment s t).
  { revert Ht Ht'. unfold projectionParameter, reverseSegment; simpl.
    set (sx := x (end_ s) - x (start s)).
    set (sy := y (end_ s) - y (start s)).
    replace (x (start s) - x (end_ s)) with (- sx) by (unfold sx; ring).
    replace (y (start s) - y (end_ s)) with (- sy) by (unfold sy; ring).
    replace (- sx * - sx + - sy * - sy) with (sx * sx + sy * sy) by ring.
    destruct (Reqb (sx * sx + sy * sy) 0) eqn:EL; simpl.
    - intros [= <-] [= <-]. apply Reqb_true in EL.
      assert (sx = 0) by nra. assert (sy = 0) by nra.
      apply vector_eq; simpl; fold sx sy; unfold sx, sy in *; lra.
    - apply Reqb_false in EL. rewrite !checked_div_nonzero by exact EL.
      intros [= <-] [= <-].
      replace (((x p - x (end_ s)) * - sx + (y p - y (end_ s)) * - sy)
               / (sx * sx + sy * sy))
        with (1 - ((x p - x (start s)) * sx + (y p - y (start s)) * sy)
                  / (sx * sx + sy * sy))
        by (unfold sx, sy; field; exact EL).
      rewrite clamp_complement.
      apply vector_eq; simpl; fold sx sy; unfold sx, sy; ring. }
  now rewrite E.
Qed.

(** ** More on [circleSegmentCollision] *)

(** The collision branch, written out. *)
Lemma circleSegmentCollision_collided
    (c : Vector2D) (r : R) (s : LineSegment) (t : R) :
  projectionParameter c s = Some t ->
  let cp := pointOnSegment s t in
  let D := euclideanDistance c cp in
  D < r ->
  circleSegmentCollision c r s =
    Some {| collided := true;
            normal :=
              Some (if Rltb 0 D
                    then {| x := (x c - x cp) / D; y := (y c - y cp) / D |}
                    else {| x := x c - x cp; y := y c - y cp |});
            depth := Some (r - D);
            contactPoint := Some cp |}.
Proof.
  intros Ht cp D HD.
  unfold circleSegmentCollision.
  rewrite (pointToSegmentDistance_at c s t Ht).
  cbn [distance closestPoint]. fold cp. fold D.
  apply Rgeb_false in HD. rewrite HD.
  change (sqrt (x {| x := x c - x cp; y := y c - y cp |}
                * x {| x := x c - x cp; y := y c - y cp |}
                + y {| x := x c - x cp; y := y c - y cp |}
                  * y {| x := x c - x cp; y := y c - y cp |})) with D.
  cbn [x y].
  destruct (Rltb 0 D) eqn:E; [|reflexivity].
  apply Rltb_true in E. now rewrite !checked_div_nonzero by lra.
Qed.

(** X15.  What a call reports.  Without a collision the three optional
    fields are absent.  With one, the depth is [radius - distance], positive
    and at most the radius, the contact point is the closest point of the
    segment, and the normal times the distance is the vector from the
    contact point to the centre: the normal points from the wall to the
    ball. *)
Theorem circleSegmentCollision_result
    (c : Vector2D) (r : R) (s : LineSegment) :
  exists d res,
    pointToSegmentDistance c s = Some d /\
    circleSegmentCollision c r s = Some res /\
    (collided res = false -> res = noCollision /\ r <= distance d) /\
    (collided res = true ->
       depth res = Some (r - distance d) /\
       0 < r - distance d <= r /\
       contactPoint res = Some (closestPoint d) /\
       exists n,
         normal res = Some n /\
         scaleVector n (distance d) = vectorFromTo (closestPoint d) c).
Proof.
  destruct (projectionParameter_range c s) as (t & Ht & _).
  pose proof (pointToSegmentDistance_at c s t Ht) as Hd.
  set (cp := pointOnSegment s t) in *.
  set (D := euclideanDistance c cp) in *.
  pose proof (euclideanDistance_nonneg c cp) as Hpos. fold D in Hpos.
  exists {| distance := D; closestPoint := cp |}.
  destruct (Rlt_le_dec D r) as [Hlt | Hge].
  - eexists. split; [exact Hd|].
    split; [exact (circleSegmentCollision_collided c r s t Ht Hlt)|].
    cbn [collided depth contactPoint normal distance closestPoint].
    split; [discriminate|]. intros _.
    split; [reflexivity|]. split; [lra|]. split; [reflexivity|].
    eexists. split; [reflexivity|].
    fold cp. fold D.
    destruct (Rltb 0 D) eqn:E.
    + apply Rltb_true in E.
      apply vector_eq; simpl; field; lra.
    + apply Rltb_false in E.
      assert (HD0 : D = 0) by lra.
      pose proof HD0 as Hz. apply vectorLength_zero_iff in Hz.
      simpl in Hz. destruct Hz as [Hx Hy].
      rewrite HD0. apply vector_eq; simpl; lra.
  - exists noCollision. split; [exact Hd|].
    split; [exact (circleSegmentCollision_far c r s _ Hd Hge)|].
    cbn [collided noCollision distance].
    split; [intros _; split; [reflexivity | exact Hge] | discriminate].
Qed.

Lemma circleSegmentCollision_result_witness :
  exists res,
    circleSegmentCollision {| x := 0; y := 2 |} 3 unitSegment = Some res /\
    depth res = Some (3 - 2).
Proof.
  destruct (circleSegmentCollision_result {| x := 0; y := 2 |} 3 unitSegment)
    as (d & res & Hd & Hres & Hno & Hyes).
  rewrite pointToSegmentDistance_unitSegment_above in Hd.
  injection Hd as <-. cbn [distance closestPoint] in *.
  exists res. split; [exact Hres|].
  destruct (collided res) eqn:E.
  - apply Hyes. reflexivity.
  - destruct (Hno eq_refl) as [_ Hge]. exfalso. lra.
Defined.

(** *** Pushing the ball out *)




(** ** More on the collision handling *)

Lemma euclideanDistance_sym (a b : Vector2D) :
  euclideanDistance a b = euclideanDistance b a.
Proof.
  unfold euclideanDistance, vectorLength; simpl. f_equal. ring.
Qed.

Lemma vectorLength_triangle (a b : Vector2D) :
  vectorLength (addVectors a b) <= vectorLength a + vectorLength b.
Proof.
  pose proof (vectorLength_nonneg a) as Ha.
  pose proof (vectorLength_nonneg b) as Hb.
  pose proof (vectorLength_sqr a) as Sa.
  pose proof (vectorLength_sqr b) as Sb.
  pose proof (dotProduct_le_lengths a b) as Hcs. unfold dotProduct in Hcs.
  rewrite <- (sqrt_square (vectorLength a + vectorLength b)) by lra.
  unfold vectorLength at 1. apply sqrt_le_1_alt. simpl. nra.
Qed.

Lemma euclideanDistance_triangle (a b c : Vector2D) :
  euclideanDistance a c <= euclideanDistance a b + euclideanDistance b c.
Proof.
  unfold euclideanDistance.
  replace {| x := x a - x c; y := y a - y c |}
    with (addVectors {| x := x a - x b; y := y a - y b |}
                     {| x := x b - x c; y := y b - y c |})
    by (apply vector_eq; simpl; ring).
  apply vectorLength_triangle.
Qed.

(** No point of the line through an edge is nearer to the centre than the
    apothem. *)
Lemma edge_point_far_from_center (h : Hexagon) (edge : LineSegment) (t : R) :
  0 <= radius h ->
  In edge (getHexagonEdges h) ->
  apothem h <= euclideanDistance (pointOnSegment edge t) (center h).
Proof.
  intros HR Hin.
  destruct (hexagon_edge_shape h edge Hin) as (ca & sa & Hu & ->).
  pose proof sqrt3_sqr as Hq. pose proof sqrt3_pos as Hq0.
  unfold apothem.
  rewrite <- (sqrt_square (radius h * (sqrt 3 / 2)))
    by (apply Rmult_le_pos; lra).
  unfold euclideanDistance, vectorLength, pointOnSegment; simpl.
  apply sqrt_le_1_alt.
  set (r := radius h) in *. set (q := sqrt 3) in *.
  set (cx := x (center h)). set (cy := y (center h)).
  match goal with
  | |- _ <= ?D =>
      replace D
        with (r * r * ((ca * ca + sa * sa) * ((1 - t) * (1 - t) + t * (1 - t))
                       + t * t * (ca * ca + sa * sa) * (1 + q * q) / 4))
        by field
  end.
  rewrite Hu, Hq. clearbody r q cx cy.
  replace (1 * ((1 - t) * (1 - t) + t * (1 - t)) + t * t * 1 * (1 + 3) / 4)
    with (3 / 4 + (t - 1 / 2) * (t - 1 / 2)) by field.
  replace (r * (q / 2) * (r * (q / 2))) with (r * r * (3 / 4))
    by (transitivity (r * r * (q * q) / 4); [rewrite Hq; field | field]).
  pose proof (Rle_0_sqr (t - 1 / 2)) as Ht2. unfold Rsqr in Ht2.
  assert (Hr2 : 0 <= r * r) by nra.
  nra.
Qed.

Lemma no_collision_within_disc
    (h : Hexagon) (edge : LineSegment) (p : Vector2D) (rb : R) :
  0 <= radius h ->
  euclideanDistance p (center h) + rb <= apothem h ->
  In edge (getHexagonEdges h) ->
  circleSegmentCollision p rb edge = Some noCollision.
Proof.
  intros HR Hd Hin.
  destruct (projectionParameter_range p edge) as (t & Ht & _).
  apply (circleSegmentCollision_far _ _ _ _
           (pointToSegmentDistance_at _ _ _ Ht)).
  cbn [distance].
  pose proof (edge_point_far_from_center h edge t HR Hin) as Hfar.
  pose proof (euclideanDistance_triangle
                (pointOnSegment edge t) p (center h)) as Htri.
  rewrite (euclideanDistance_sym (pointOnSegment edge t) p) in Htri.
  lra.
Qed.

Lemma handleCollisions_within_disc
    (damping w : R) (b : Ball) (h : Hexagon) :
  0 <= radius h ->
  0 <= Physics.radius b ->
  euclideanDistance (position b) (center h) + Physics.radius b
    <= apothem h ->
  handleCollisions damping b h w = Some b.
Proof.
  intros HR Hrb Hd.
  apply handleCollisions_untouched.
  - intros edge Hin. now apply (no_collision_within_disc h).
  - apply isPointInHexagon_true_intro. intros i Hi.
    apply edgeCrossProduct_within_apothem; [exact Hi | exact HR | lra].
Qed.

(** X17.  A ball that lies wholly inside the inscribed disc of the hexagon
    touches none of the six edges, has its centre inside the hexagon, and
    goes through [handleCollisions] unchanged, whatever the rotation, the
    angular velocity and the damping. *)
Theorem handleCollisions_inside_inscribed_disc
    (damping w : R) (b : Ball) (h : Hexagon) :
  0 <= radius h ->
  0 <= Physics.radius b ->
  euclideanDistance (position b) (center h) + Physics.radius b
    <= apothem h ->
  (forall edge, In edge (getHexagonEdges h) ->
     circleSegmentCollision (position b) (Physics.radius b) edge
     = Some noCollision) /\
  isPointInHexagon (position b) h = true /\
  handleCollisions damping b h w = Some b.
Proof.
  intros HR Hrb Hd. split; [|split].
  - intros edge Hin. now apply (no_collision_within_disc h).
  - apply isPointInHexagon_true_intro. intros i Hi.
    apply edgeCrossProduct_within_apothem; [exact Hi | exact HR | lra].
  - now apply handleCollisions_within_disc.
Qed.

Lemma reset_position_within_disc (theta : R) :
  euclideanDistance {| x := 400; y := 200 |}
    (center (rotateHexagon initialHexagon theta)) + 10
  <= apothem (rotateHexagon initialHexagon theta).
Proof.
  unfold euclideanDistance, vectorLength, apothem; simpl.
  replace ((400 - 400) * (400 - 400) + (200 - 300) * (200 - 300))
    with (100 * 100) by ring.
  rewrite sqrt_square by lra.
  pose proof sqrt3_lower. lra.
Qed.

Lemma handleCollisions_inside_inscribed_disc_witness :
  handleCollisions (85 / 100)
    {| position := {| x := 400; y := 200 |};
       velocity := {| x := 200; y := 0 |};
       Physics.radius := 10; mass := 1 |} initialHexagon (1 / 2)
  = Some {| position := {| x := 400; y := 200 |};
            velocity := {| x := 200; y := 0 |};
            Physics.radius := 10; mass := 1 |}.
Proof.
  apply (handleCollisions_inside_inscribed_disc (85 / 100) (1 / 2)
           {| position := {| x := 400; y := 200 |};
              velocity := {| x := 200; y := 0 |};
              Physics.radius := 10; mass := 1 |} initialHexagon).
  - simpl; lra.
  - simpl; lra.
  - pose proof (reset_position_within_disc 0) as H.
    unfold apothem, euclideanDistance in *. simpl in *. exact H.
Defined.



(** *** The containment fallback *)

(** X19.  When the ball centre is outside the hexagon the fallback moves
    it 5 units towards the hexagon centre and keeps velocity and radius:
    the new position is the old one plus 5 times the unit vector from the
    ball to the hexagon centre, so it is 5 away from the old position and
    the distance to the centre [D] becomes [|D - 5|], which is [D - 5] as
    soon as the apothem is at least 5. *)
Theorem keepInsideHexagon_nudge (b : Ball) (h : Hexagon) :
  isPointInHexagon (position b) h = false ->
  exists b',
    keepInsideHexagon b h = Some b' /\
    0 < euclideanDistance (position b) (center h) /\
    position b' =
      addVectors (position b)
        (scaleVector (vectorFromTo (position b) (center h))
           (5 / euclideanDistance (position b) (center h))) /\
    euclideanDistance (position b') (position b) = 5 /\
    velocity b' = velocity b /\
    Physics.radius b' = Physics.radius b /\
    mass b' = mass b /\
    euclideanDistance (position b') (center h)
      = Rabs (euclideanDistance (position b) (center h) - 5) /\
    (0 <= radius h -> 5 <= apothem h ->
     euclideanDistance (position b') (center h)
       = euclideanDistance (position b) (center h) - 5).
Proof.
  intros Hout.
  set (D := euclideanDistance (position b) (center h)).
  assert (HD : 0 < D).
  { pose proof (euclideanDistance_nonneg (position b) (center h)) as Hpos.
    fold D in Hpos.
    destruct (Req_dec_T D 0) as [H0 | Hn]; [exfalso | lra].
    apply vectorLength_zero_iff in H0. simpl in H0. destruct H0 as [Hx Hy].
    assert (E : position b = center h) by (apply vector_eq; lra).
    rewrite E in Hout.
    assert (Hin : isPointInHexagon (center h) h = true).
    { apply isPointInHexagon_true_intro. intros i Hi.
      rewrite edgeCrossProduct_center by exact Hi.
      pose proof sqrt3_pos.
      pose proof (Rle_0_sqr (radius h)) as Hr. unfold Rsqr in Hr.
      apply Rmult_le_pos; lra. }
    congruence. }
  unfold keepInsideHexagon. rewrite Hout. cbn [negb].
  set (tx := x (center h) - x (position b)).
  set (ty := y (center h) - y (position b)).
  assert (Esqrt : sqrt (tx * tx + ty * ty) = D).
  { unfold D. rewrite euclideanDistance_sym. reflexivity. }
  rewrite Esqrt.
  replace (Rltb 0 D) with true by (symmetry; apply Rltb_true; exact HD).
  rewrite !checked_div_nonzero by lra.
  eexists. split; [reflexivity|].
  cbn [velocity Physics.radius mass position set_position].
  split; [exact HD|].
  assert (Epos :
    {| x := x (position b) + tx / D * 5; y := y (position b) + ty / D * 5 |}
    = addVectors (position b)
        (scaleVector (vectorFromTo (position b) (center h)) (5 / D))).
  { apply vector_eq; simpl; unfold tx, ty; field; lra. }
  split; [exact Epos|].
  assert (Emove :
    euclideanDistance
      {| x := x (position b) + tx / D * 5;
         y := y (position b) + ty / D * 5 |} (position b)
    = 5).
  { transitivity
      (vectorLength
         (scaleVector {| x := x (center h) - x (position b);
                         y := y (center h) - y (position b) |} (5 / D))).
    - unfold euclideanDistance. f_equal.
      apply vector_eq; simpl; unfold tx, ty; field; lra.
    - rewrite vectorLength_scale
        by (apply Rlt_le, Rdiv_lt_0_compat; lra).
      change (vectorLength {| x := x (center h) - x (position b);
                              y := y (center h) - y (position b) |})
        with (euclideanDistance (center h) (position b)).
      rewrite euclideanDistance_sym. fold D. field. lra. }
  split; [exact Emove|].
  split; [reflexivity|]. split; [reflexivity|]. split; [reflexivity|].
  assert (Enew :
    euclideanDistance
      {| x := x (position b) + tx / D * 5;
         y := y (position b) + ty / D * 5 |} (center h)
    = Rabs (D - 5)).
  { transitivity
      (vectorLength
         (scaleVector {| x := x (position b) - x (center h);
                         y := y (position b) - y (center h) |}
            (1 - 5 / D))).
    - unfold euclideanDistance. f_equal.
      apply vector_eq; simpl; unfold tx, ty; field; lra.
    - rewrite vectorLength_scale_abs.
      change (vectorLength {| x := x (position b) - x (center h);
                              y := y (position b) - y (center h) |}) with D.
      rewrite <- (Rabs_pos_eq D) at 1 by lra.
      rewrite <- Rabs_mult. f_equal. field. lra. }
  split; [exact Enew|].
  intros HR Hap. rewrite Enew.
  apply Rabs_pos_eq.
  destruct (Rle_lt_dec (apothem h) D) as [Hfar | Hnear]; [lra | exfalso].
  assert (Hin : isPointInHexagon (position b) h = true).
  { apply isPointInHexagon_true_intro. intros i Hi.
    apply edgeCrossProduct_within_apothem; [exact Hi | exact HR |].
    fold D. lra. }
  congruence.
Qed.

Lemma keepInsideHexagon_nudge_witness :
  let b :=
    {| position :=
         pointOnSegment
           {| start := center initialHexagon;
              end_ := nth 0 (getHexagonVertices initialHexagon)
                        zeroVector |} (11 / 10);
       velocity := zeroVector; Physics.radius := 10; mass := 1 |} in
  exists b',
    keepInsideHexagon b initialHexagon = Some b' /\
    position b' =
      addVectors (position b)
        (scaleVector (vectorFromTo (position b) (center initialHexagon))
           (5 / euclideanDistance (position b) (center initialHexagon))) /\
    euclideanDistance (position b') (position b) = 5 /\
    velocity b' = zeroVector.
Proof.
  intros b.
  destruct (keepInsideHexagon_nudge b initialHexagon)
    as (b' & E & _ & Hp & Hm & Hv & _).
  - unfold b. cbn [position].
    apply (isPointInHexagon_false_intro initialHexagon _ 0); [lia|].
    apply (edgeCrossProduct_beyond_vertex initialHexagon 0 (11 / 10)).
    + lia.
    + simpl; lra.
    + lra.
  - exists b'. repeat split; assumption.
Defined.

(** ** More on the simulation step *)

Lemma collideWithEdge_keeps
    (h : Hexagon) (w damping : R) (b b' : Ball) (edge : LineSegment) :
  collideWithEdge h w damping b edge = Some b' ->
  Physics.radius b' = Physics.radius b /\ mass b' = mass b.
Proof.
  unfold collideWithEdge.
  destruct (circleSegmentCollision _ _ edge) as [res |]; [|discriminate].
  destruct (collided res), (normal res), (contactPoint res);
    try (intros [= <-]; split; reflexivity).
  destruct (depth res) as [dp |]; [destruct (Reqb dp 0)|];
    intros [= <-]; split; reflexivity.
Qed.

Lemma collideWithEdges_keeps
    (h : Hexagon) (w damping : R) (edges : list LineSegment) (b b' : Ball) :
  collideWithEdges h w damping b edges = Some b' ->
  Physics.radius b' = Physics.radius b /\ mass b' = mass b.
Proof.
  revert b. induction edges as [| edge rest IH]; intros b; simpl.
  - intros [= <-]. split; reflexivity.
  - destruct (collideWithEdge h w damping b edge) as [b1 |] eqn:E;
      [|discriminate].
    intros Hrest. apply IH in Hrest. apply collideWithEdge_keeps in E.
    destruct Hrest, E. split; congruence.
Qed.

Lemma keepInsideHexagon_keeps (b b' : Ball) (h : Hexagon) :
  keepInsideHexagon b h = Some b' ->
  Physics.radius b' = Physics.radius b /\ mass b' = mass b /\
  velocity b' = velocity b.
Proof.
  unfold keepInsideHexagon.
  destruct (isPointInHexagon (position b) h); cbn [negb];
    [intros [= <-]; repeat split|].
  destruct (Rltb 0 _); [|intros [= <-]; repeat split].
  destruct (checked_div _ _); [|discriminate].
  destruct (checked_div _ _); [|discriminate].
  intros [= <-]. repeat split.
Qed.

Lemma clampMinVelocity_keeps (b b' : Ball) (minV : R) :
  clampMinVelocity b minV = Some b' ->
  Physics.radius b' = Physics.radius b /\ mass b' = mass b /\
  position b' = position b.
Proof.
  unfold clampMinVelocity.
  destruct (Rltb _ minV && Rltb 0 _); [|intros [= <-]; repeat split].
  destruct (checked_div _ _); [|discriminate].
  intros [= <-]. repeat split.
Qed.

(** X20.  A step always produces a state, for every time step and every
    parameter: no division by zero is reached.  It keeps the radius and the
    mass of the ball and the centre and the radius of the hexagon, and it
    advances the rotation by [rotationSpeed * deltaTime]. *)
Theorem simulationStep_invariants
    (params : PhysicsParams) (w dt : R) (st : SimState) :
  exists st',
    simulationStep params w dt st = Some st' /\
    Physics.radius (ball st') = Physics.radius (ball st) /\
    mass (ball st') = mass (ball st) /\
    hexagon st' = rotateHexagon (hexagon st) (w * dt).
Proof.
  destruct (simulationStep_total params w dt st) as (st' & Hst).
  exists st'. split; [exact Hst|].
  revert Hst. unfold simulationStep.
  destruct (handleCollisions _ _ _ _) as [b4 |] eqn:E4; [|discriminate].
  destruct (clampMinVelocity b4 _) as [b5 |] eqn:E5; [|discriminate].
  intros [= <-]. cbn [ball hexagon].
  apply clampMinVelocity_keeps in E5. destruct E5 as (Hr5 & Hm5 & _).
  unfold handleCollisions in E4.
  destruct (collideWithEdges _ _ _ _ _) as [b3 |] eqn:E3; [|discriminate].
  apply keepInsideHexagon_keeps in E4. destruct E4 as (Hr4 & Hm4 & _).
  apply collideWithEdges_keeps in E3. destruct E3 as (Hr3 & Hm3).
  rewrite Hr5, Hm5, Hr4, Hm4, Hr3, Hm3.
  repeat split.
Qed.

(** X21.  Free flight.  When the ball, after the move, lies wholly inside
    the inscribed disc and is at rest or at least as fast as [minVelocity],
    the step is one step of the integration alone: gravity is added to the
    vertical velocity, then both components are multiplied by
    [1 - airFriction * dt], then the position advances by the new velocity
    times [dt], and the hexagon turns by [rotationSpeed * dt]. *)
Theorem simulationStep_free_flight
    (params : PhysicsParams) (w dt : R) (st : SimState) :
  let p := position (ball st) in
  let v := velocity (ball st) in
  let friction := 1 - airFriction params * dt in
  let v' := {| x := x v * friction;
               y := (y v + gravity params * dt) * friction |} in
  let p' := {| x := x p + x v' * dt; y := y p + y v' * dt |} in
  0 <= radius (hexagon st) ->
  0 <= Physics.radius (ball st) ->
  euclideanDistance p' (center (hexagon st)) + Physics.radius (ball st)
    <= apothem (hexagon st) ->
  vectorLength v' = 0 \/ minVelocity params <= vectorLength v' ->
  simulationStep params w dt st =
    Some {| ball := {| position := p'; velocity := v';
                       Physics.radius := Physics.radius (ball st);
                       mass := mass (ball st) |};
            hexagon := rotateHexagon (hexagon st) (w * dt) |}.
Proof.
  intros p v friction v' p' HR Hrb Hd Hspeed.
  unfold simulationStep.
  set (b3 := updateBallPosition _ dt).
  assert (Eb : b3 = {| position := p'; velocity := v';
                       Physics.radius := Physics.radius (ball st);
                       mass := mass (ball st) |}) by reflexivity.
  rewrite Eb.
  fold (rotateHexagon (hexagon st) (w * dt)).
  rewrite handleCollisions_within_disc; [| exact HR | exact Hrb | exact Hd].
  now rewrite clampMinVelocity_unchanged by exact Hspeed.
Qed.

Lemma vectorLength_upper (v : Vector2D) (m : R) :
  0 <= m -> x v * x v + y v * y v <= m * m -> vectorLength v <= m.
Proof.
  intros Hm H. rewrite <- (sqrt_square m) by exact Hm.
  now apply sqrt_le_1_alt.
Qed.

Lemma vectorLength_lower (v : Vector2D) (m : R) :
  0 <= m -> m * m <= x v * x v + y v * y v -> m <= vectorLength v.
Proof.
  intros Hm H. rewrite <- (sqrt_square m) by exact Hm.
  now apply sqrt_le_1_alt.
Qed.

Lemma simulationStep_free_flight_witness :
  exists st',
    simulationStep initialParams (1 / 2) (16 / 1000)
      {| ball := centredBall {| x := 200; y := 0 |};
         hexagon := initialHexagon |}
    = Some st' /\
    hexagon st' = rotateHexagon initialHexagon (1 / 2 * (16 / 1000)).
Proof.
  eexists. split.
  - apply (simulationStep_free_flight initialParams (1 / 2) (16 / 1000)
             {| ball := centredBall {| x := 200; y := 0 |};
                hexagon := initialHexagon |}).
    + simpl; lra.
    + simpl; lra.
    + assert (H : euclideanDistance
                    {| x := 400 + 200 * (1 - 2 / 100 * (16 / 1000))
                                  * (16 / 1000);
                       y := 300 + (0 + 500 * (16 / 1000))
                                  * (1 - 2 / 100 * (16 / 1000))
                                  * (16 / 1000) |}
                    {| x := 400; y := 300 |} <= 4).
      { apply vectorLength_upper; simpl; lra. }
      unfold apothem; simpl in *. pose proof sqrt3_lower. lra.
    + right. apply vectorLength_lower; simpl; lra.
  - reflexivity.
Defined.

(** ** The trail *)

Lemma updateTrail_shown (trail : list Vector2D) (p : Vector2D) :
  (length trail <= maxTrailLength)%nat ->
  updateTrail true trail p
  = skipn (length (trail ++ [p]) - maxTrailLength) (trail ++ [p]).
Proof.
  intros Hlen. unfold updateTrail; cbn [negb].
  rewrite length_app. cbn [length].
  destruct (Nat.ltb_spec maxTrailLength (length trail + 1)) as [Hfull | Hroom].
  - replace (length trail + 1 - maxTrailLength)%nat with 1%nat by lia.
    destruct trail as [| a rest];
      [cbn in Hfull; unfold maxTrailLength in *; lia|].
    reflexivity.
  - replace (length trail + 1 - maxTrailLength)%nat with 0%nat by lia.
    reflexivity.
Qed.

(** X22.  One update of the trail.  With the trail hidden nothing is
    recorded.  With the trail shown the position is appended; a trail that
    already holds 50 positions loses its oldest one, so that the trail
    never holds more than 50 positions and always ends with the newest. *)
Theorem updateTrail_bounded
    (showTrail : bool) (trail : list Vector2D) (p : Vector2D) :
  (length trail <= maxTrailLength)%nat ->
  (length (updateTrail showTrail trail p) <= maxTrailLength)%nat /\
  (showTrail = false -> updateTrail showTrail trail p = trail) /\
  (showTrail = true ->
     last (updateTrail showTrail trail p) zeroVector = p /\
     ((length trail < maxTrailLength)%nat ->
      updateTrail showTrail trail p = trail ++ [p]) /\
     (length trail = maxTrailLength ->
      updateTrail showTrail trail p = tl trail ++ [p])).
Proof.
  intros Hlen. destruct showTrail.
  - rewrite (updateTrail_shown trail p Hlen).
    split; [|split; [discriminate|intros _; split; [|split]]].
    + rewrite length_skipn, length_app. cbn [length]. lia.
    + destruct (Nat.eq_dec (length trail) maxTrailLength) as [Hfull | Hroom].
      * rewrite length_app. cbn [length].
        replace (length trail + 1 - maxTrailLength)%nat with 1%nat by lia.
        destruct trail as [| a rest];
          [unfold maxTrailLength in Hfull; discriminate|].
        cbn [app skipn]. apply last_last.
      * rewrite length_app. cbn [length].
        replace (length trail + 1 - maxTrailLength)%nat with 0%nat by lia.
        cbn [skipn]. apply last_last.
    + intros Hroom. rewrite length_app. cbn [length].
      replace (length trail + 1 - maxTrailLength)%nat with 0%nat by lia.
      reflexivity.
    + intros Hfull. rewrite length_app. cbn [length].
      replace (length trail + 1 - maxTrailLength)%nat with 1%nat by lia.
      destruct trail as [| a rest];
        [unfold maxTrailLength in Hfull; discriminate|].
      reflexivity.
  - split; [exact Hlen|]. split; [reflexivity | discriminate].
Qed.

Lemma updateTrail_bounded_witness :
  updateTrail true [zeroVector] {| x := 1; y := 2 |}
  = [zeroVector] ++ [{| x := 1; y := 2 |}].
Proof.
  apply (updateTrail_bounded true [zeroVector] {| x := 1; y := 2 |}).
  - unfold maxTrailLength; simpl; lia.
  - reflexivity.
  - unfold maxTrailLength; simpl; lia.
Defined.

(** X23.  Recording a run of positions into an empty trail leaves the last
    50 of them, oldest first. *)
Theorem updateTrail_keeps_latest (positions : list Vector2D) :
  fold_left (updateTrail true) positions []
  = skipn (length positions - maxTrailLength) positions.
Proof.
  assert (H : forall ps trail,
            (length trail <= maxTrailLength)%nat ->
            fold_left (updateTrail true) ps trail
            = skipn (length (trail ++ ps) - maxTrailLength) (trail ++ ps)).
  { induction ps as [| p ps IH]; intros trail Hlen.
    - cbn [fold_left]. rewrite app_nil_r.
      replace (length trail - maxTrailLength)%nat with 0%nat by lia.
      reflexivity.
    - cbn [fold_left]. rewrite (updateTrail_shown trail p Hlen).
      rewrite IH
        by (rewrite length_skipn, length_app; cbn [length]; lia).
      destruct (Nat.eq_dec (length trail) maxTrailLength) as [Hfull | Hroom].
      + replace (length (trail ++ [p]) - maxTrailLength)%nat with 1%nat
          by (rewrite length_app; cbn [length]; lia).
        destruct trail as [| a rest];
          [unfold maxTrailLength in Hfull; discriminate|].
        cbn [app skipn]. rewrite <- app_assoc. cbn [app].
        replace (length (a :: rest ++ p :: ps) - maxTrailLength)%nat
          with (S (length (rest ++ p :: ps) - maxTrailLength))
          by (cbn [length] in *; rewrite length_app; cbn [length]; lia).
        reflexivity.
      + replace (length (trail ++ [p]) - maxTrailLength)%nat with 0%nat
          by (rewrite length_app; cbn [length]; lia).
        cbn [skipn]. rewrite <- app_assoc. reflexivity. }
  rewrite (H positions []) by (cbn; lia). reflexivity.
Qed.

(** ** Resetting the ball *)

(** X24.  With both random numbers in [[0, 1)], the ball that [resetBall]
    creates has a horizontal velocity in [[-200, 200)] and a vertical one
    in [[-100, 100)], and it sits clear of the walls of the component's
    hexagon (centre (400, 300), radius 200) at every rotation: collision
    handling leaves it as it is. *)
Theorem resetBall_clear_of_walls (random1 random2 theta damping w : R) :
  0 <= random1 < 1 ->
  0 <= random2 < 1 ->
  let b := resetBall random1 random2 in
  -200 <= x (velocity b) < 200 /\
  -100 <= y (velocity b) < 100 /\
  handleCollisions damping b (rotateHexagon initialHexagon theta) w = Some b.
Proof.
  intros H1 H2 b. split; [|split].
  - unfold b, resetBall; simpl. lra.
  - unfold b, resetBall; simpl. lra.
  - apply handleCollisions_within_disc.
    + simpl; lra.
    + simpl; lra.
    + exact (reset_position_within_disc theta).
Qed.

Lemma resetBall_clear_of_walls_witness :
  handleCollisions (85 / 100) (resetBall (1 / 2) (1 / 4))
    (rotateHexagon initialHexagon 1) (1 / 2)
  = Some (resetBall (1 / 2) (1 / 4)).
Proof.
  apply (resetBall_clear_of_walls (1 / 2) (1 / 4) 1 (85 / 100) (1 / 2)); lra.
Defined.

(** ** The bounce in the frame of the wall *)

(** X25.  With damping 1 the bounce is a mirror reflection in the frame of
    the moving wall: the speed relative to the wall along the unit normal
    changes sign and the length of the relative velocity is kept. *)
Theorem bounce_elastic_moving_wall (v n w : Vector2D) :
  vectorLength n = 1 ->
  normalSpeedOf v n w <= 0 ->
  let v' := calculateBounceVelocity v n w 1 in
  normalSpeedOf v' n w = - normalSpeedOf v n w /\
  euclideanDistance v' w = euclideanDistance v w.
Proof.
  intros Hn Hs v'. apply unit_vector_sqr in Hn.
  unfold v'. rewrite calculateBounceVelocity_approaching by exact Hs.
  set (s := normalSpeedOf v n w) in *.
  assert (Es : (x v - x w) * x n + (y v - y w) * y n = s) by reflexivity.
  split.
  - unfold normalSpeedOf, dotProduct; simpl.
    transitivity
      (((x v - x w) * x n + (y v - y w) * y n)
       - 2 * s * (x n * x n + y n * y n)); [ring|].
    rewrite Hn, Es. ring.
  - unfold euclideanDistance, vectorLength; simpl. f_equal.
    transitivity
      ((x v - x w) * (x v - x w) + (y v - y w) * (y v - y w)
       - 4 * s * ((x v - x w) * x n + (y v - y w) * y n)
       + 4 * s * s * (x n * x n + y n * y n)); [ring|].
    rewrite Hn, Es. ring.
Qed.

Lemma bounce_elastic_moving_wall_witness :
  let v := {| x := 0; y := -11 |} in
  let n := {| x := 0; y := 1 |} in
  let w := {| x := 0; y := -10 |} in
  normalSpeedOf (calculateBounceVelocity v n w 1) n w
  = - normalSpeedOf v n w.
Proof.
  intros v n w.
  apply (bounce_elastic_moving_wall v n w).
  - exact unit_y_length.
  - unfold normalSpeedOf, dotProduct, v, n, w; simpl; lra.
Defined.

(** ** [getEdgeNormal] on any segment *)

(** X26.  [getEdgeNormal] always answers.  On a segment whose ends differ
    it gives a unit vector perpendicular to the segment, the segment
    vector turned by a quarter turn from the x axis towards the y axis; on
    a segment whose ends coincide it gives the zero vector; and on the
    reversed segment it gives the opposite vector. *)
Theorem getEdgeNormal_spec (s : LineSegment) :
  exists n,
    getEdgeNormal s = Some n /\
    getEdgeNormal (reverseSegment s) = Some (scaleVector n (-1)) /\
    (start s = end_ s -> n = zeroVector) /\
    (start s <> end_ s ->
       vectorLength n = 1 /\
       dotProduct n (segmentVector s) = 0 /\
       scaleVector n (vectorLength (segmentVector s))
       = {| x := - y (segmentVector s); y := x (segmentVector s) |}).
Proof.
  unfold getEdgeNormal, reverseSegment; simpl.
  set (ex := x (end_ s) - x (start s)).
  set (ey := y (end_ s) - y (start s)).
  replace (x (start s) - x (end_ s)) with (- ex) by (unfold ex; ring).
  replace (y (start s) - y (end_ s)) with (- ey) by (unfold ey; ring).
  replace (- - ey * - - ey + - ex * - ex) with (- ey * - ey + ex * ex) by ring.
  set (l := sqrt (- ey * - ey + ex * ex)).
  assert (Hl : l = vectorLength (segmentVector s)).
  { unfold l, vectorLength, segmentVector; simpl. fold ex ey. f_equal. ring. }
  assert (Hll : l * l = - ey * - ey + ex * ex)
    by (apply sqrt_sqrt; nra).
  assert (Hpos : 0 <= l) by apply sqrt_pos.
  destruct (Rltb 0 l) eqn:E.
  - apply Rltb_true in E. rewrite !checked_div_nonzero by lra.
    eexists. split; [reflexivity|].
    split; [f_equal; apply vector_eq; simpl; field; lra|].
    split.
    + intros Heq. exfalso.
      assert (ex = 0) by (unfold ex; rewrite Heq; ring).
      assert (ey = 0) by (unfold ey; rewrite Heq; ring).
      nra.
    + intros _. split; [|split].
      * apply (normalized_unit (- ey) ex). exact E.
      * unfold dotProduct, segmentVector; simpl. fold ex ey. field. lra.
      * rewrite <- Hl. unfold segmentVector; simpl. fold ex ey.
        apply vector_eq; simpl; field; lra.
  - apply Rltb_false in E.
    assert (Hl0 : l = 0) by lra.
    assert (Hex : ex = 0) by nra. assert (Hey : ey = 0) by nra.
    eexists. split; [reflexivity|].
    split; [f_equal; apply vector_eq; simpl; ring|].
    split.
    + intros _. apply vector_eq; simpl; lra.
    + intros Hne. exfalso. apply Hne.
      apply vector_eq; unfold ex, ey in *; lra.
Qed.

Lemma getEdgeNormal_spec_witness :
  exists n, getEdgeNormal unitSegment = Some n /\ vectorLength n = 1.
Proof.
  destruct (getEdgeNormal_spec unitSegment) as (n & E & _ & _ & H).
  exists n. split; [exact E|].
  apply H. intros Heq. apply (f_equal (fun v => x v)) in Heq.
  simpl in Heq. lra.
Defined.
